(** * Weather-enriched event service: a shallow embedding of [server.js]

    The development follows the layout of the source file: JSON values and
    JavaScript objects, the weather normaliser [simplifyWeather], the scorer
    [getSuitability], the cached fetch [getWeather] / [safeGetWeather], the
    formatter [formatEvent] and the route handlers.  Effects (the weather
    cache, the JSON file behind [readDB]/[writeDB], calls to the provider)
    are threaded through an explicit [World]. *)

From Stdlib Require Import ZArith QArith String Ascii List Sorting.Sorted
  Sorting.Permutation.
From stdpp Require Import base option list gmap strings pretty fin_maps.

Local Open Scope string_scope.
Local Open Scope list_scope.
Local Open Scope Z_scope.

(** ** JSON values and JavaScript objects *)

(** A JavaScript number that is finite: every finite double is a rational,
    and the comparisons the program makes ([> 10], [< 283], [> 303], [===])
    agree with the comparisons of rationals. *)
#[warnings="-register-all"]
Inductive json : Type :=
  | JNull
  | JBool (b : bool)
  | JNum (q : Q)
  | JStr (s : string)
  | JArr (items : list json)
  | JObj (fields : list (string * json)).

(** JSON numbers for the integers the service computes. *)
Definition JInt (n : Z) : json := JNum (inject_Z n).

(** A JavaScript value as a variable or a property holds it: [None] is
    [undefined]. *)
Abbreviation jsval := (option json).
Abbreviation undefined := (@None json).

(** An object as [JSON.parse] yields it (a stored event, a request body):
    no property holds [undefined]. *)
Abbreviation object := (gmap string json).

(** An object built by an object literal: a property may be present and hold
    [undefined], as [name] does in [{ id, name }] when [name] is undefined. *)
Abbreviation jsobject := (gmap string jsval).

(** Property read [o.k]: a missing property reads as [undefined]. *)
Definition prop (o : jsobject) (k : string) : jsval := mjoin (o !! k).

(** A parsed object seen as a JavaScript object. *)
Definition of_object (o : object) : jsobject := Some <$> o.

(** [JSON.parse (JSON.stringify o)] on an object literal whose defined
    properties are JSON values: properties holding [undefined] are dropped. *)
Definition stringify (o : jsobject) : object := omap id o.

(** The own properties of the target after [Object.assign (target, source)]:
    each property of the source is assigned to the target, overwriting the
    target's, and the others stay.  The name [__proto__] is the exception the
    language makes: unless the target has a property of its own by that name,
    assigning to it runs the setter of [Object.prototype] and creates no
    property. *)
Definition Object_assign (target source : object) : object :=
  (if decide (is_Some (target !! "__proto__")) then source
   else delete "__proto__" source) ∪ target.

(** The properties of a JSON value that is an object or an array; of two
    fields of one name in an object, the later one counts. *)
Definition json_fields (v : json) : object :=
  match v with
  | JObj fields => list_to_map (reverse fields)
  | JArr items =>
    <["length" := JInt (Z.of_nat (length items))]>
      (list_to_map (imap (λ i item, (pretty i, item)) items))
  | _ => ∅
  end.

(** What a property read on the target finds beyond its own properties after
    [Object.assign (target, source)], for the names that [Object.prototype]
    and [Array.prototype] do not define (the names of an event's fields are
    among them): the setter behind [__proto__] makes the value the source
    gives the target's prototype when that value is an object, an array or
    [null], and a read that finds no own property goes on to it. *)
Definition inherited (target source : object) : object :=
  if decide (is_Some (target !! "__proto__")) then ∅
  else from_option json_fields ∅ (source !! "__proto__").

(** ** Strings: [toLowerCase] and [includes] *)

(** Strings are byte strings; [toLowerCase] maps the ASCII capitals, which is
    all that can produce a byte of the needles "clear", "cloud" and "rain". *)
Definition lower_ascii (c : ascii) : ascii :=
  let n := nat_of_ascii c in
  if ((65 <=? n)%nat && (n <=? 90)%nat)%bool then ascii_of_nat (n + 32) else c.

Fixpoint toLowerCase (s : string) : string :=
  match s with
  | EmptyString => EmptyString
  | String c r => String (lower_ascii c) (toLowerCase r)
  end.

(** [s.includes (needle)]: the needle occurs at some position of [s]. *)
Fixpoint includes (s needle : string) : bool :=
  String.prefix needle s ||
  match s with
  | EmptyString => false
  | String _ r => includes r needle
  end.

(** ** Weather observations *)

(** The provider's payload, as far as the program reads it:
    [raw.main?.temp], [raw.weather?.[0]?.description], [raw.weather?.[0]?.icon],
    [raw.wind?.speed], [raw.clouds?.all].  An absent object or property is
    [None]; an absent or empty [weather] array is [[]]. *)
Record RawMain := { raw_temp : option Q }.
Record RawCondition := { raw_description : option string; raw_icon : option string }.
Record RawWind := { raw_speed : option Q }.
Record RawClouds := { raw_all : option Q }.
Record RawWeather := {
  raw_main : option RawMain;
  raw_weather : list RawCondition;
  raw_wind : option RawWind;
  raw_clouds : option RawClouds
}.

(** The value a response body parses to, as the program reads it: [None] for
    a falsy value ([null], [false], [0] or the empty string), which every
    caller tests for and treats as no data; [Some raw] for any other value,
    [raw] being what the program reads of it. *)
Abbreviation Payload := (option RawWeather).

(** The normalised record [{ temp, description, wind, clouds, icon }];
    [clouds = None] is [null]. *)
Record Weather := {
  temp : Q;
  description : string;
  wind : Q;
  clouds : option Q;
  icon : string
}.

(** [x || d] on a number: [undefined] and [0] are falsy. *)
Definition num_or (x : option Q) (d : Q) : Q :=
  match x with
  | Some q => if Qeq_bool q 0 then d else q
  | None => d
  end.

(** [x || d] on a string: [undefined] and the empty string are falsy. *)
Definition str_or (x : option string) (d : string) : string :=
  match x with
  | Some EmptyString | None => d
  | Some s => s
  end.

Definition simplifyWeather (raw : RawWeather) : Weather :=
  {| temp := num_or (raw_main raw ≫= raw_temp) 0;
     description := str_or (head (raw_weather raw) ≫= raw_description) "unknown";
     wind := num_or (raw_wind raw ≫= raw_speed) 0;
     clouds := raw_clouds raw ≫= raw_all;
     icon := str_or (head (raw_weather raw) ≫= raw_icon) "" |}.

(** The observation as the JSON value stored in an event's [weather]. *)
Definition json_of_weather (w : Weather) : json :=
  JObj [("temp", JNum (temp w));
        ("description", JStr (description w));
        ("wind", JNum (wind w));
        ("clouds", from_option JNum JNull (clouds w));
        ("icon", JStr (icon w))].

(** The value of [simplifiedWeather]: the observation, or [null]. *)
Definition json_of_weather_opt (w : option Weather) : json :=
  from_option json_of_weather JNull w.

(** ** Suitability scoring *)

Record Suitability := { score : Z; suitability : string }.

(** [a > b] and [a < b] on numbers. *)
Definition Qgtb (a b : Q) : bool := negb (Qle_bool a b).
Definition Qltb (a b : Q) : bool := negb (Qle_bool b a).

(** [v === s] for a string literal [s]. *)
Definition strict_eq_str (v : jsval) (s : string) : bool :=
  match v with
  | Some (JStr t) => String.eqb t s
  | _ => false
  end.

Definition getSuitability (weather : option Weather) (type : jsval) : Suitability :=
  match weather with
  | None => {| score := 0; suitability := "Unknown" |}
  | Some weather =>
    let score := 50 in
    let desc := toLowerCase (description weather) in
    let score := if includes desc "clear" then score + 30 else score in
    let score := if includes desc "cloud" then score + 10 else score in
    let score := if includes desc "rain" then score - 30 else score in
    let score := if Qgtb (wind weather) 10 then score - 10 else score in
    let score :=
      if Qltb (temp weather) 283 || Qgtb (temp weather) 303
      then score - 10 else score in
    let score :=
      if strict_eq_str type "wedding" then score + 10
      else if strict_eq_str type "sports" then score - 5
      else score in
    let score := Z.max 0 (Z.min 100 score) in
    let suitability :=
      if 80 <? score then "Great"
      else if 60 <? score then "Good"
      else if 40 <? score then "Okay"
      else "Poor" in
    {| score := score; suitability := suitability |}
  end.

Arguments simplifyWeather : simpl never.
Arguments json_of_weather : simpl never.
Arguments getSuitability : simpl never.

(** ** The scorer as the specification words it *)

Module ScorerSpec.

(** Two characters that differ at most in case. *)
Definition same_letter (a b : ascii) : bool :=
  Ascii.eqb (lower_ascii a) (lower_ascii b).

Fixpoint starts_with_ci (needle s : string) : bool :=
  match needle, s with
  | EmptyString, _ => true
  | String a n, String b r => same_letter a b && starts_with_ci n r
  | String _ _, EmptyString => false
  end.

(** The description contains the needle, matched case-insensitively. *)
Fixpoint contains_ci (s needle : string) : bool :=
  starts_with_ci needle s ||
  match s with
  | EmptyString => false
  | String _ r => contains_ci r needle
  end.

Definition is_type (type : jsval) (name : string) : bool :=
  match type with
  | Some (JStr t) => bool_decide (t = name)
  | _ => false
  end.

(** One adjustment: its amount when its condition holds, nothing otherwise. *)
Definition adjustment (applies : bool) (amount : Z) : Z :=
  if applies then amount else 0.

Definition base : Z := 50.

(** All adjustments are read off the observation and the type themselves. *)
Definition adjustments (w : Weather) (type : jsval) : list Z :=
  [ adjustment (contains_ci (description w) "clear") 30;
    adjustment (contains_ci (description w) "cloud") 10;
    adjustment (contains_ci (description w) "rain") (-30);
    adjustment (Qgtb (wind w) 10) (-10);
    adjustment (Qltb (temp w) 283 || Qgtb (temp w) 303) (-10);
    adjustment (is_type type "wedding") 10;
    adjustment (is_type type "sports") (-5) ].

Definition clamp (lo hi x : Z) : Z :=
  if x <? lo then lo else if hi <? x then hi else x.

Definition label (s : Z) : string :=
  if 80 <? s then "Great"
  else if 60 <? s then "Good"
  else if 40 <? s then "Okay"
  else "Poor".

Definition score_of (w : Weather) (type : jsval) : Z :=
  clamp 0 100 (fold_right Z.add base (adjustments w type)).

Definition scorer (observation : option Weather) (type : jsval) : Suitability :=
  match observation with
  | None => {| score := 0; suitability := "Unknown" |}
  | Some w => {| score := score_of w type; suitability := label (score_of w type) |}
  end.

End ScorerSpec.

(** ** The world the service runs in *)

(** What [await fetch (url)] resolves to: [res.ok], [res.status], and what
    [await res.json ()] gives, a payload or a rejection with its message. *)
Record Response := {
  ok : bool;
  status : Z;
  json_body : string + Payload
}.

(** The file [db.json] ([None]: missing or unreadable, read as an empty
    store), the process-wide [weatherCache], and the URLs requested from the
    provider so far, oldest first. *)
Record World := {
  db_file : option (list object);
  weatherCache : gmap string Payload;
  upstream : list string
}.

Definition set_db (events : list object) (w : World) : World :=
  {| db_file := Some events; weatherCache := weatherCache w; upstream := upstream w |}.

Definition set_cache (key : string) (data : Payload) (w : World) : World :=
  {| db_file := db_file w;
     weatherCache := <[key := data]> (weatherCache w);
     upstream := upstream w |}.

Definition log_upstream (url : string) (w : World) : World :=
  {| db_file := db_file w; weatherCache := weatherCache w;
     upstream := upstream w ++ [url] |}.

(** A computation either returns or throws an [Error] with a message; either
    way it may have changed the world. *)
Inductive outcome (A : Type) : Type :=
  | Returned (a : A)
  | Thrown (message : string).
Arguments Returned {A} a.
Arguments Thrown {A} message.

Definition M (A : Type) : Type := World → outcome A * World.

Definition ret {A} (a : A) : M A := λ w, (Returned a, w).

Definition throw {A} (message : string) : M A := λ w, (Thrown message, w).

Definition bind {A B} (m : M A) (k : A → M B) : M B := λ w,
  match m w with
  | (Returned a, w') => k a w'
  | (Thrown e, w') => (Thrown e, w')
  end.

(** [try { m } catch (err) { handler (err.message) }] *)
Definition try_catch {A} (m : M A) (handler : string → M A) : M A := λ w,
  match m w with
  | (Returned a, w') => (Returned a, w')
  | (Thrown e, w') => handler e w'
  end.

Declare Scope M_scope.
Delimit Scope M_scope with M.
Notation "'let*' x ':=' m 'in' k" := (bind m (λ x, k))
  (at level 10, x name, m at level 100, k at level 200) : M_scope.
Notation "'let*' ' p ':=' m 'in' k" := (bind m (λ x, match x with p => k end))
  (at level 10, p pattern, m at level 100, k at level 200) : M_scope.
Local Open Scope M_scope.

Definition readDB : M (list object) := λ w, (Returned (default [] (db_file w)), w).

Definition writeDB (events : list object) : M unit := λ w, (Returned tt, set_db events w).

(** ** Replies *)

Record Suggestion := { sg_date : string; sg_score : Z; sg_suitability : string }.

Inductive Body : Type :=
  | EventBody (event : jsobject)
  | EventsBody (events : list jsobject)
  | RawBody (raw : RawWeather)
  | SuitabilityBody (score suitability : jsval)
  | SuggestionsBody (suggestions : list Suggestion)
  | ErrorBody (error : string)
  | MessageBody (message : string).

Record Reply := { code : Z; body : Body }.

(** [res.json (b)] and [res.status (c).json (b)] *)
Definition res_json (b : Body) : Reply := {| code := 200; body := b |}.
Definition res_status_json (c : Z) (b : Body) : Reply := {| code := c; body := b |}.

(** ** Formatting an event *)

Definition event_fields : list string :=
  ["id"; "name"; "city"; "date"; "type"; "score"; "suitability"; "weather"].

Definition formatEvent (event : jsobject) : jsobject :=
  let id := prop event "id" in
  let name := prop event "name" in
  let city := prop event "city" in
  let date := prop event "date" in
  let type := prop event "type" in
  let score := prop event "score" in
  let suitability := prop event "suitability" in
  let weather := prop event "weather" in
  {[ "id" := id; "name" := name; "city" := city; "date" := date;
     "type" := type; "score" := score; "suitability" := suitability;
     "weather" := weather ]}.

(** ** Finding an event *)

(** [parseInt (req.params.id)]: an integer, or [None] for [NaN]. *)
Abbreviation idparam := (option Z).

(** [e.id === id] *)
Definition id_is (id : idparam) (e : object) : bool :=
  match id, e !! "id" with
  | Some n, Some (JNum q) => Qeq_bool q (inject_Z n)
  | _, _ => false
  end.

(** [events.find (e => e.id === id)], with the position of the event found:
    the handlers mutate that element of [db.events] in place. *)
Fixpoint find_event (id : idparam) (events : list object) : option (nat * object) :=
  match events with
  | [] => None
  | e :: rest =>
    if id_is id e then Some (0%nat, e)
    else '(i, e') ← find_event id rest; Some (S i, e')
  end.

(** ** Sorting *)

(** [l.sort (cmp)]: the stable sort by a comparator that returns a negative
    number when its first argument comes first. *)
Fixpoint sort_insert {A} (cmp : A → A → Z) (x : A) (l : list A) : list A :=
  match l with
  | [] => [x]
  | y :: r => if cmp x y <=? 0 then x :: y :: r else y :: sort_insert cmp x r
  end.

Definition Array_sort {A} (cmp : A → A → Z) (l : list A) : list A :=
  foldr (sort_insert cmp) [] l.

(** [(a, b) => b.score - a.score] *)
Definition by_score_desc (a b : Suggestion) : Z := sg_score b - sg_score a.

(** ** The host's [Date] *)

(** The [Date] of the language as far as the alternatives route uses it:
    [new Date (v)], [getDate], [setDate] and [toISOString].  A time is a
    number of milliseconds since 1970-01-01T00:00:00Z; [None] stands for the
    time value [NaN] of an invalid date. *)
Module JSDate.

Definition msPerDay : Z := 86400000.

(** What the language leaves to the host: how [Date.parse] reads a string,
    and the offset of local time from UTC in milliseconds, [LocalTZA t true]
    at the UTC time [t] and [LocalTZA t false] at the local time [t]. *)
Record Impl : Type :=
  { Date_parse : string → option Z;
    LocalTZA : Z → bool → Z }.

(** [TimeClip]: a time further than 100 000 000 days from the epoch is
    [NaN]. *)
Definition TimeClip (t : Z) : option Z :=
  if Z.abs t <=? 8640000000000000 then Some t else None.

(** A number without its fraction. *)
Definition truncate (q : Q) : Z := Z.quot (Qnum q) (Z.pos (Qden q)).

(** [new Date (v)] for a value from a parsed JSON document or [undefined]:
    a string is parsed, an array or an object is parsed as the string it
    converts to, and anything else is taken as the number it converts to
    ([undefined] as [NaN], [null] as 0). *)
Definition Date_new (ToString : jsval → string) (impl : Impl) (v : jsval) : option Z :=
  match v with
  | None => None
  | Some JNull => Some 0
  | Some (JBool b) => Some (if b then 1 else 0)
  | Some (JNum q) => TimeClip (truncate q)
  | Some (JStr s) => Date_parse impl s ≫= TimeClip
  | Some (JArr _) | Some (JObj _) => Date_parse impl (ToString v) ≫= TimeClip
  end.

(** [d.setDate (d.getDate () + k)] on the time [t] of [d]: the date of the
    month is read and set in local time, [MakeDay] counts a date beyond the
    month's end on into the following months and the time within the day is
    kept, so the local time moves by [k] whole days;  the result is read back
    as a local time. *)
Definition setDate_by (impl : Impl) (t k : Z) : option Z :=
  let local := t + LocalTZA impl t true in
  let moved := local + k * msPerDay in
  TimeClip (moved - LocalTZA impl moved false).

(** Days since 1970-01-01 of a day of the proleptic Gregorian calendar (a
    day past the end of its month counts on into the next), and back. *)
Definition days_from_civil (y m d : Z) : Z :=
  let y := if m <=? 2 then y - 1 else y in
  let era := y / 400 in
  let yoe := y - era * 400 in
  let doy := (153 * (if 2 <? m then m - 3 else m + 9) + 2) / 5 + d - 1 in
  let doe := yoe * 365 + yoe / 4 - yoe / 100 + doy in
  era * 146097 + doe - 719468.

Definition civil_from_days (z : Z) : Z * Z * Z :=
  let z := z + 719468 in
  let era := z / 146097 in
  let doe := z - era * 146097 in
  let yoe := (doe - doe / 1460 + doe / 36524 - doe / 146096) / 365 in
  let y := yoe + era * 400 in
  let doy := doe - (365 * yoe + yoe / 4 - yoe / 100) in
  let mp := (5 * doy + 2) / 153 in
  let d := doy - (153 * mp + 2) / 5 + 1 in
  let m := if mp <? 10 then mp + 3 else mp - 9 in
  (if m <=? 2 then y + 1 else y, m, d).

Fixpoint zeros (n : nat) : string :=
  match n with
  | O => ""
  | S n => "0" +:+ zeros n
  end.

(** A number in at least [width] digits, padded with zeros. *)
Definition pad (width : nat) (s : string) : string :=
  zeros (width - String.length s) +:+ s.

(** The year of [toISOString]: four digits, or a sign and six digits outside
    0 to 9999. *)
Definition year_string (y : Z) : string :=
  if (0 <=? y) && (y <=? 9999) then pad 4 (pretty y)
  else (if y <? 0 then "-" else "+") +:+ pad 6 (pretty (Z.abs y)).

(** The calendar day with the given number, as [YYYY-MM-DD]. *)
Definition day_string (n : Z) : string :=
  let '(y, m, d) := civil_from_days n in
  year_string y +:+ "-" +:+ pad 2 (pretty m) +:+ "-" +:+ pad 2 (pretty d).

(** [d.toISOString ().split ("T")[0]] for a date [d] of time [t]: the UTC
    day that [t] falls on. *)
Definition iso_date (t : Z) : string := day_string (t / msPerDay).

(** [n = new Date (new Date (date)); n.setDate (n.getDate () + k);
     n.toISOString ().split ("T")[0]], [None] where [toISOString] throws its
    [RangeError] because the time is [NaN]. *)
Definition offsetDate (ToString : jsval → string) (impl : Impl)
    (date : jsval) (k : Z) : option string :=
  t ← Date_new ToString impl date;
  u ← setDate_by impl t k;
  Some (iso_date u).

(** *** Sample hosts *)

Definition digit_of (c : ascii) : option Z :=
  let n := Z.of_nat (nat_of_ascii c) in
  if (48 <=? n) && (n <=? 57) then Some (n - 48) else None.

Fixpoint digits_go (s : string) (acc : Z) : option Z :=
  match s with
  | EmptyString => Some acc
  | String c r => d ← digit_of c; digits_go r (10 * acc + d)
  end.

(** A non-empty run of decimal digits. *)
Definition digits (s : string) : option Z :=
  match s with
  | EmptyString => None
  | _ => digits_go s 0
  end.

(** The date-only form [YYYY-MM-DD] as V8 reads it: the month is 01 to 12
    and the day 01 to 31 whatever the month, and the time is the midnight
    that starts the day in UTC.  The sample hosts read no other string. *)
Definition parse_date_only (s : string) : option Z :=
  if bool_decide (String.length s = 10%nat ∧ String.get 4 s = Some "-"%char
                  ∧ String.get 7 s = Some "-"%char) then
    y ← digits (substring 0 4 s);
    m ← digits (substring 5 2 s);
    d ← digits (substring 8 2 s);
    if (1 <=? m) && (m <=? 12) && (1 <=? d) && (d <=? 31)
    then Some (days_from_civil y m d * msPerDay) else None
  else None.

(** A host whose clock runs in UTC. *)
Definition utc : Impl :=
  {| Date_parse := parse_date_only; LocalTZA := λ _ _, 0 |}.


End JSDate.

(** ** A host to run the service on *)

(** A host whose clock runs in UTC, with one provider script per example.
    The service is stated for every provider, [ToString] and [Date]; this
    host is what the examples run on. *)
Module Host.

(** [ToString], exact on [undefined], [null], booleans, strings, integers
    and the arrays and objects made of these; the examples convert nothing
    else. *)
Fixpoint ToString_json (v : json) : string :=
  match v with
  | JNull => "null"
  | JBool b => if b then "true" else "false"
  | JStr s => s
  | JNum q => pretty (Qnum (Qred q))
  | JArr items =>
    let element x := match x with JNull => "" | _ => ToString_json x end in
    (fix join (l : list json) : string :=
       match l with
       | [] => ""
       | [x] => element x
       | x :: r => element x +:+ "," +:+ join r
       end) items
  | JObj _ => "[object Object]"
  end.

Definition ToString (v : jsval) : string :=
  match v with
  | None => "undefined"
  | Some v => ToString_json v
  end.

Definition offsetDate : jsval → Z → option string :=
  JSDate.offsetDate ToString JSDate.utc.

(** A provider that is down: every request fails to connect. *)
Definition provider_down (n : nat) (url : string) : string + Response :=
  inl "request failed".

(** A provider that answers every request with [503]. *)
Definition provider_503 (n : nat) (url : string) : string + Response :=
  inr {| ok := false; status := 503; json_body := inl "Unexpected token" |}.

Definition clear_sky : RawWeather :=
  {| raw_main := Some {| raw_temp := Some (290 # 1)%Q |};
     raw_weather := [{| raw_description := Some "clear sky"; raw_icon := Some "01d" |}];
     raw_wind := Some {| raw_speed := Some (3 # 1)%Q |};
     raw_clouds := Some {| raw_all := Some (0 # 1)%Q |} |}.

Definition light_rain : RawWeather :=
  {| raw_main := Some {| raw_temp := Some (281 # 1)%Q |};
     raw_weather := [{| raw_description := Some "light rain"; raw_icon := Some "10d" |}];
     raw_wind := Some {| raw_speed := Some (12 # 1)%Q |};
     raw_clouds := Some {| raw_all := Some (90 # 1)%Q |} |}.

Definition respond (data : RawWeather) : string + Response :=
  inr {| ok := true; status := 200; json_body := inr (Some data) |}.

(** A provider that answers every request with 200 and the body [null]. *)
Definition provider_null (n : nat) (url : string) : string + Response :=
  inr {| ok := true; status := 200; json_body := inr None |}.

(** A provider that answers the first request with 200 and the body [null],
    and every later one with a clear sky. *)
Definition provider_null_once (n : nat) (url : string) : string + Response :=
  if bool_decide (n = 0%nat) then inr {| ok := true; status := 200; json_body := inr None |}
  else respond clear_sky.

(** A provider that always answers with a clear sky. *)
Definition provider_clear (n : nat) (url : string) : string + Response :=
  respond clear_sky.

(** A provider that answers every other request, starting with the first,
    and is unreachable in between; its answers alternate. *)
Definition provider_flaky (n : nat) (url : string) : string + Response :=
  if Nat.even n then respond (if (n mod 4 =? 0)%nat then light_rain else clear_sky)
  else inl "socket hang up".

(** An empty world: no file, nothing cached, nothing requested. *)
Definition boot : World :=
  {| db_file := None; weatherCache := ∅; upstream := [] |}.

Definition picnic : object :=
  {[ "name" := JStr "Picnic"; "city" := JStr "Pune";
     "date" := JStr "2024-03-01"; "type" := JStr "sports" ]}.

(** The picnic as stored when the provider was down at its creation. *)
Definition stored_picnic : object :=
  {[ "id" := JInt 1; "name" := JStr "Picnic"; "city" := JStr "Pune";
     "date" := JStr "2024-03-01"; "type" := JStr "sports";
     "score" := JInt 0; "suitability" := JStr "Unknown"; "weather" := JNull ]}.

(** A second event, stored with a clear sky. *)
Definition stored_gala : object :=
  {[ "id" := JInt 2; "name" := JStr "Gala"; "city" := JStr "Oslo";
     "date" := JStr "2024-06-15"; "type" := JStr "wedding";
     "score" := JInt 90; "suitability" := JStr "Great";
     "weather" := json_of_weather (simplifyWeather clear_sky) ]}.

(** A world whose file holds the given events. *)
Definition world_of (events : list object) : World :=
  {| db_file := Some events; weatherCache := ∅; upstream := [] |}.

End Host.

(** ** The service *)

Section Service.

(** The provider: what the [n]-th upstream request (counting from 0), for a
    given URL, resolves to; [inl message] when [fetch] itself rejects. *)
Variable provider : nat → string → string + Response.

(** The host's conversion of a value to a string inside a template literal. *)
Variable ToString : jsval → string.

(** The host's [Date]: [offsetDate d k] is
    [n = new Date (new Date (d)); n.setDate (n.getDate () + k);
     n.toISOString ().split ("T")[0]], or [None] where [toISOString] throws
    its [RangeError] because [d] does not denote a time.  The handlers are
    written over any such function; [JSDate.offsetDate] is the one the
    language defines, for a host's time zone and its reading of strings. *)
Variable offsetDate : jsval → Z → option string.

Set Default Proof Using "Type*".

Definition API_KEY : string := "09f443ae647258a69c856b58371234e2".

(** [await fetch (url)] *)
Definition fetch (url : string) : M Response := λ w,
  match provider (length (upstream w)) url with
  | inl message => (Thrown message, log_upstream url w)
  | inr res => (Returned res, log_upstream url w)
  end.

(** [await res.json ()] *)
Definition res_json_body (res : Response) : M Payload :=
  match json_body res with
  | inl message => throw message
  | inr data => ret data
  end.

Definition cache_key (city date : string) : string := city +:+ "-" +:+ date.

Definition weather_url (city : string) : string :=
  "https://api.openweathermap.org/data/2.5/weather?q=" +:+ city +:+ "&appid=" +:+ API_KEY.

(** The lines written by [console.error] are not part of the world. *)
Definition getWeather (city date : string) : M Payload := λ w,
  let key := cache_key city date in
  match weatherCache w !! key with
  | Some data => (Returned data, w)
  | None =>
    let url := weather_url city in
    try_catch
      (let* res := fetch url in
       let* _ := (if negb (ok res) then throw ("HTTP " +:+ pretty (status res)) else ret tt) in
       let* data := res_json_body res in
       let* _ := (λ w, (Returned tt, set_cache key data w)) in
       ret data)
      (λ err, throw err) w
  end.

Definition safeGetWeather (city date : string) : M Payload :=
  try_catch (let* data := getWeather city date in ret data)
            (λ _, ret None).

(** *** POST /events *)
Definition post_events (req_body : object) : M Reply :=
  let name := req_body !! "name" in
  let city := req_body !! "city" in
  let date := req_body !! "date" in
  let type := req_body !! "type" in
  let* db := readDB in
  let* rawWeather := safeGetWeather (ToString city) (ToString date) in
  let simplifiedWeather := simplifyWeather <$> rawWeather in
  let s := getSuitability simplifiedWeather type in
  let newEvent : jsobject :=
    {[ "id" := Some (JInt (Z.of_nat (length db) + 1));
       "name" := name;
       "city" := city;
       "date" := date;
       "type" := type;
       "score" := Some (JInt (score s));
       "suitability" := Some (JStr (suitability s));
       "weather" := Some (json_of_weather_opt simplifiedWeather) ]} in
  let* _ := writeDB (db ++ [stringify newEvent]) in
  ret (res_json (EventBody (formatEvent newEvent))).

(** *** GET /events *)
Definition get_events : M Reply :=
  let* db := readDB in
  ret (res_json (EventsBody (formatEvent <$> (of_object <$> db)))).

(** *** PUT /events/:id *)
Definition put_event (id : idparam) (req_body : object) : M Reply :=
  let* db := readDB in
  match find_event id db with
  | None => ret (res_status_json 404 (ErrorBody "Event not found"))
  | Some (i, event) =>
    let inherits := inherited event req_body in
    let event := Object_assign event req_body in
    let* _ := writeDB (<[i := event]> db) in
    ret (res_json (EventBody (formatEvent (of_object (event ∪ inherits)))))
  end.

(** *** GET /weather/:city/:date *)
Definition get_weather (city date : string) : M Reply :=
  let* weather := safeGetWeather city date in
  match weather with
  | None =>
    ret (res_status_json 500 (ErrorBody "Weather API unavailable or invalid location"))
  | Some weather => ret (res_json (RawBody weather))
  end.

(** *** POST /events/:id/weather-check *)
Definition post_weather_check (id : idparam) : M Reply :=
  let* db := readDB in
  match find_event id db with
  | None => ret (res_status_json 404 (ErrorBody "Event not found"))
  | Some (i, event) =>
    let* rawWeather :=
      safeGetWeather (ToString (event !! "city")) (ToString (event !! "date")) in
    match rawWeather with
    | None => ret (res_status_json 500 (ErrorBody "Weather check failed"))
    | Some rawWeather =>
      let simplified := simplifyWeather rawWeather in
      let s := getSuitability (Some simplified) (event !! "type") in
      let event := <["weather" := json_of_weather simplified]> event in
      let event := <["score" := JInt (score s)]> event in
      let event := <["suitability" := JStr (suitability s)]> event in
      let* _ := writeDB (<[i := event]> db) in
      ret (res_json (EventBody (formatEvent (of_object event))))
    end
  end.

(** *** GET /events/:id/suitability *)
Definition get_suitability (id : idparam) : M Reply :=
  let* db := readDB in
  match find_event id db with
  | None => ret (res_status_json 404 (ErrorBody "Event not found"))
  | Some (_, event) =>
    ret (res_json (SuitabilityBody (event !! "score") (event !! "suitability")))
  end.

(** *** GET /events/:id/alternatives *)

(** One turn of [for (let offset = -3; offset <= 3; offset++)], from the
    suggestions pushed so far to those pushed after it. *)
Definition alternatives_body (event : object) (offset : Z)
    (suggestions : list Suggestion) : M (list Suggestion) :=
  if offset =? 0 then ret suggestions
  else
    match offsetDate (event !! "date") offset with
    | None => throw "Invalid time value"
    | Some dateStr =>
      let* weatherRaw := safeGetWeather (ToString (event !! "city")) dateStr in
      match weatherRaw with
      | None => ret suggestions
      | Some weatherRaw =>
        let simplified := simplifyWeather weatherRaw in
        let s := getSuitability (Some simplified) (event !! "type") in
        ret (suggestions ++
             [{| sg_date := dateStr; sg_score := score s;
                 sg_suitability := suitability s |}])
      end
    end.

(** The loop over the values the counter takes. *)
Fixpoint for_each {S} (offsets : list Z) (body : Z → S → M S) (acc : S) : M S :=
  match offsets with
  | [] => ret acc
  | offset :: rest =>
    let* acc := body offset acc in for_each rest body acc
  end.

Definition get_alternatives (id : idparam) : M Reply :=
  let* db := readDB in
  match find_event id db with
  | None => ret (res_status_json 404 (ErrorBody "Event not found"))
  | Some (_, event) =>
    let* suggestions := for_each (seqZ (-3) 7) (alternatives_body event) [] in
    if bool_decide (length suggestions = 0%nat) then
      ret (res_status_json 404
             (MessageBody "No suitable alternatives found due to weather data unavailability."))
    else
      ret (res_json (SuggestionsBody (Array_sort by_score_desc suggestions)))
  end.

(** ** Requests *)

Inductive Request : Type :=
  | POST_events (req_body : object)
  | GET_events
  | PUT_event (id : idparam) (req_body : object)
  | GET_weather (city date : string)
  | POST_weather_check (id : idparam)
  | GET_suitability (id : idparam)
  | GET_alternatives (id : idparam).

Definition handle (r : Request) : M Reply :=
  match r with
  | POST_events b => post_events b
  | GET_events => get_events
  | PUT_event id b => put_event id b
  | GET_weather city date => get_weather city date
  | POST_weather_check id => post_weather_check id
  | GET_suitability id => get_suitability id
  | GET_alternatives id => get_alternatives id
  end.

(** The world after a request has been served. *)
Definition step (w : World) (r : Request) : World := (handle r w).2.

(** The world after a sequence of requests, served one after the other. *)
Definition serve (rs : list Request) (w : World) : World := foldl step w rs.

(** *** The fetch as the specification words it *)

(** What the provider's answer comes to: the payload of a successful
    response, or the message of the failure (the call did not complete, the
    status is not a success, the body does not parse). *)
Definition settle (answer : string + Response) : string + Payload :=
  match answer with
  | inl message => inl message
  | inr res => if ok res then json_body res else inl ("HTTP " +:+ pretty (status res))
  end.

(** A failed provider fetch: the call does not complete, the status is not
    a success, or the response does not parse. *)
Definition fetch_failed (answer : string + Response) : Prop :=
  match answer with
  | inl _ => True
  | inr res => ok res = false ∨ ∃ message, json_body res = inl message
  end.

(** *** Relations every run of a computation keeps *)

(** Whatever world [m] starts in, the world it leaves is related to it. *)
Definition respects {A} (R : relation World) (m : M A) : Prop :=
  ∀ w, R w (m w).2.

(** Nothing cached is lost or replaced. *)
Definition cache_grows (w w' : World) : Prop :=
  weatherCache w ⊆ weatherCache w'.

(** The store is as it was. *)
Definition same_db (w w' : World) : Prop := db_file w' = db_file w.



(** *** The store *)

(** The events in the file. *)
Definition stored_events (w : World) : list object := default [] (db_file w).


(** The ids in the store are 1, 2, 3, ... in the order of the records. *)
Definition ids_sequential (events : list object) : Prop :=
  ∀ i e, events !! i = Some e → e !! "id" = Some (JInt (Z.of_nat i + 1)).

(** An update whose request provides an [id] field. *)
Definition provides_id (r : Request) : Prop :=
  match r with
  | PUT_event _ req_body => is_Some (req_body !! "id")
  | _ => False
  end.

(** The requests that write the store. *)
Definition writes_store (r : Request) : bool :=
  match r with
  | POST_events _ | PUT_event _ _ | POST_weather_check _ => true
  | _ => false
  end.

(** *** Requests to the provider *)

(** From [w] to [w'] at most [n] requests went to the provider, each for the
    weather of some city, and none was forgotten. *)
Definition asks (n : nat) (w w' : World) : Prop :=
  ∃ urls, upstream w' = upstream w ++ urls ∧ (length urls ≤ n)%nat ∧
          Forall (λ url, ∃ city, url = weather_url city) urls.

(** Whatever world [m] starts in, it makes at most [n] requests. *)
Definition spends {A} (n : nat) (m : M A) : Prop := ∀ w, asks n w (m w).2.

(** The most requests a route makes. *)
Definition upstream_budget (r : Request) : nat :=
  match r with
  | POST_events _ | GET_weather _ _ | POST_weather_check _ => 1
  | GET_alternatives _ => 6
  | GET_events | PUT_event _ _ | GET_suitability _ => 0
  end.

(** *** The alternatives as the specification words them *)

(** The six offsets in days from the event's date. *)
Definition alternative_offsets : list Z := [-3; -2; -1; 1; 2; 3].

(** Best-effort fetches for one city and a list of dates, one after the
    other, each date paired with what its fetch gave. *)
Fixpoint probe (city : string) (dates : list string)
    : M (list (string * Payload)) :=
  match dates with
  | [] => ret []
  | d :: rest =>
    let* r := safeGetWeather city d in
    let* rs := probe city rest in
    ret ((d, r) :: rs)
  end.

(** The entry of a date whose fetch succeeded, scored for an event type. *)
Definition suggestion_of (type : jsval) (p : string * Payload)
    : option Suggestion :=
  raw ← p.2;
  let s := getSuitability (Some (simplifyWeather raw)) type in
  Some {| sg_date := p.1; sg_score := score s; sg_suitability := suitability s |}.


(** * Properties *)

(** ** Strings *)

Lemma lower_ascii_idem c : lower_ascii (lower_ascii c) = lower_ascii c.
Proof. by destruct c as [[] [] [] [] [] [] [] []]. Qed.

Lemma prefix_lower needle s :
  toLowerCase needle = needle →
  String.prefix needle (toLowerCase s) = ScorerSpec.starts_with_ci needle s.
Proof.
  revert s. induction needle as [|a n IH]; intros s Hn.
  - by destruct s.
  - destruct s as [|b r]; [done|]. cbn in Hn. injection Hn as Ha Hn'.
    cbn. unfold ScorerSpec.same_letter. rewrite Ha.
    destruct (ascii_dec a (lower_ascii b)) as [->|Hne].
    + rewrite Ascii.eqb_refl. cbn. by apply IH.
    + by apply Ascii.eqb_neq in Hne as ->.
Qed.

Lemma includes_lower needle s :
  toLowerCase needle = needle →
  includes (toLowerCase s) needle = ScorerSpec.contains_ci s needle.
Proof.
  intros Hn. induction s as [|c r IH].
  - cbn. by rewrite <-(prefix_lower needle "" Hn).
  - change (toLowerCase (String c r)) with (String (lower_ascii c) (toLowerCase r)).
    cbn [includes ScorerSpec.contains_ci].
    rewrite <-(prefix_lower needle (String c r) Hn), IH. done.
Qed.

(** [includes] finds exactly the strings that have the needle inside. *)
Lemma prefix_app needle s :
  String.prefix needle s = true ↔ ∃ post, s = needle +:+ post.
Proof.
  revert s. induction needle as [|a n IH]; intros s.
  - split; [intros _; by exists s | by destruct s].
  - destruct s as [|b r]; cbn.
    + split; [done | by intros [? ?]].
    + destruct (ascii_dec a b) as [->|Hne].
      * rewrite IH. split; intros [post H]; exists post; [by rewrite H | by injection H].
      * split; [done | intros [post H]; injection H; congruence].
Qed.

Lemma includes_spec s needle :
  includes s needle = true ↔ ∃ pre post, s = pre +:+ needle +:+ post.
Proof.
  induction s as [|c r IH]; cbn [includes].
  - rewrite orb_false_r, prefix_app. split.
    + intros [post H]. by exists "", post.
    + intros [[|? ?] [post H]]; [by exists post | done].
  - rewrite orb_true_iff, prefix_app, IH. split.
    + intros [[post H]|(pre & post & H)].
      * by exists "", post.
      * exists (String c pre), post. by rewrite H.
    + intros [[|c' pre] [post H]].
      * left. by exists post.
      * right. injection H as -> H. by exists pre, post.
Qed.

(** ** The scorer *)

Lemma is_type_strict_eq type name :
  ScorerSpec.is_type type name = strict_eq_str type name.
Proof.
  destruct type as [[| | |t| |]|]; cbn; try done.
  destruct (String.eqb_spec t name); [by rewrite bool_decide_eq_true_2 | by rewrite bool_decide_eq_false_2].
Qed.

(** An event type is never both "wedding" and "sports". *)
Lemma wedding_not_sports type :
  strict_eq_str type "wedding" = true → strict_eq_str type "sports" = false.
Proof.
  destruct type as [[| | |t| |]|]; cbn; try done.
  by intros ->%String.eqb_eq.
Qed.

Lemma clamp_max_min x : ScorerSpec.clamp 0 100 x = Z.max 0 (Z.min 100 x).
Proof. unfold ScorerSpec.clamp. repeat case_match; lia. Qed.

Lemma getSuitability_scorer weather type :
  getSuitability weather type = ScorerSpec.scorer weather type.
Proof.
  destruct weather as [w|]; [|done].
  unfold getSuitability, ScorerSpec.scorer, ScorerSpec.score_of, ScorerSpec.adjustments.
  rewrite clamp_max_min, !is_type_strict_eq, !includes_lower by done.
  pose proof (wedding_not_sports type) as Hty.
  destruct (strict_eq_str type "wedding"), (strict_eq_str type "sports");
    try (by specialize (Hty eq_refl));
    destruct (ScorerSpec.contains_ci (description w) "clear"),
             (ScorerSpec.contains_ci (description w) "cloud"),
             (ScorerSpec.contains_ci (description w) "rain"),
             (Qgtb (wind w) 10),
             (Qltb (temp w) 283 || Qgtb (temp w) 303); reflexivity.
Qed.

Lemma label_not_unknown s : ScorerSpec.label s ≠ "Unknown".
Proof. unfold ScorerSpec.label. repeat case_match; done. Qed.

(** C1: the scorer is the specification's reference definition: score 0 and
    "Unknown" without an observation; otherwise base 50 plus the independent
    adjustments for "clear", "cloud", "rain" in the description (matched
    ignoring case), wind above 10, temperature below 283 or above 303, and
    the types "wedding" and "sports", clamped to [0,100] and labelled by the
    exclusive thresholds 80, 60 and 40.  The score is always within [0,100],
    the label is "Unknown" exactly when there is no observation, the
    boundary scores fall in the lower band, and "clear and windy" at 290 K
    with wind 15 for a sports event scores 65, "Good". *)
Theorem getSuitability_refines_spec :
  (∀ weather type, getSuitability weather type = ScorerSpec.scorer weather type) ∧
  (∀ weather type, 0 ≤ score (getSuitability weather type) ≤ 100) ∧
  (∀ weather type,
     suitability (getSuitability weather type) = "Unknown" ↔ weather = None) ∧
  (∀ w type,
     suitability (getSuitability (Some w) type)
     = ScorerSpec.label (score (getSuitability (Some w) type))) ∧
  (ScorerSpec.label 81 = "Great" ∧ ScorerSpec.label 80 = "Good" ∧
   ScorerSpec.label 61 = "Good" ∧ ScorerSpec.label 60 = "Okay" ∧
   ScorerSpec.label 41 = "Okay" ∧ ScorerSpec.label 40 = "Poor") ∧
  getSuitability
    (Some {| temp := 290; description := "clear and windy"; wind := 15;
             clouds := None; icon := "" |})
    (Some (JStr "sports"))
  = {| score := 65; suitability := "Good" |}.
Proof.
  refine (conj _ (conj _ (conj _ (conj _ (conj _ _))))).
  - apply getSuitability_scorer.
  - intros [w|] type; rewrite getSuitability_scorer; cbn [ScorerSpec.scorer score]; [|lia].
    unfold ScorerSpec.score_of. rewrite clamp_max_min. lia.
  - intros [w|] type; rewrite getSuitability_scorer; cbn [ScorerSpec.scorer suitability].
    + split; [|done]. intros H. by apply label_not_unknown in H.
    + done.
  - intros w type. by rewrite getSuitability_scorer.
  - done.
  - reflexivity.
Qed.

(** ** The cached fetch *)

Lemma getWeather_hit city date w data :
  weatherCache w !! cache_key city date = Some data →
  getWeather city date w = (Returned data, w).
Proof. intros H. unfold getWeather. by rewrite H. Qed.

Lemma getWeather_miss city date w :
  weatherCache w !! cache_key city date = None →
  getWeather city date w =
    match settle (provider (length (upstream w)) (weather_url city)) with
    | inl message => (Thrown message, log_upstream (weather_url city) w)
    | inr data =>
      (Returned data,
       set_cache (cache_key city date) data (log_upstream (weather_url city) w))
    end.
Proof.
  intros H. unfold getWeather. rewrite H.
  unfold try_catch, bind, fetch, settle, res_json_body, throw, ret.
  destruct (provider _ _) as [m|[o st [m|data]]]; cbn; [done|..]; by destruct o.
Qed.

Lemma getWeather_thrown city date w message w' :
  getWeather city date w = (Thrown message, w') →
  weatherCache w !! cache_key city date = None ∧
  settle (provider (length (upstream w)) (weather_url city)) = inl message ∧
  w' = log_upstream (weather_url city) w.
Proof.
  destruct (weatherCache w !! cache_key city date) as [data|] eqn:Hc.
  - by rewrite (getWeather_hit _ _ _ _ Hc).
  - rewrite (getWeather_miss _ _ _ Hc). destruct (settle _); naive_solver.
Qed.

Lemma getWeather_returned city date w data w' :
  getWeather city date w = (Returned data, w') →
  weatherCache w' !! cache_key city date = Some data ∧
  (weatherCache w !! cache_key city date = Some data ∧ w' = w ∨
   weatherCache w !! cache_key city date = None ∧
   settle (provider (length (upstream w)) (weather_url city)) = inr data ∧
   w' = set_cache (cache_key city date) data (log_upstream (weather_url city) w)).
Proof.
  destruct (weatherCache w !! cache_key city date) as [data'|] eqn:Hc.
  - rewrite (getWeather_hit _ _ _ _ Hc). naive_solver.
  - rewrite (getWeather_miss _ _ _ Hc). destruct (settle _); [done|].
    intros [= -> <-]. split; [apply lookup_insert_eq|]. by right.
Qed.

Lemma safeGetWeather_unfold city date w :
  safeGetWeather city date w =
    match getWeather city date w with
    | (Returned data, w') => (Returned data, w')
    | (Thrown _, w') => (Returned None, w')
    end.
Proof.
  unfold safeGetWeather, try_catch, bind, ret.
  by destruct (getWeather city date w) as [[data|m] w'].
Qed.

Lemma safeGetWeather_returns city date w :
  ∃ r w', safeGetWeather city date w = (Returned r, w').
Proof.
  rewrite safeGetWeather_unfold.
  destruct (getWeather city date w) as [[data|m] w']; eauto.
Qed.

(** A fetch never touches the store, never forgets a cached payload, and
    only ever adds to the requests made. *)
Lemma getWeather_frame city date w :
  let w' := (getWeather city date w).2 in
  db_file w' = db_file w ∧ weatherCache w ⊆ weatherCache w' ∧
  upstream w `prefix_of` upstream w'.
Proof.
  destruct (weatherCache w !! cache_key city date) as [data|] eqn:Hc.
  - by rewrite (getWeather_hit _ _ _ _ Hc).
  - rewrite (getWeather_miss _ _ _ Hc).
    destruct (settle _); cbn; split_and!; try done;
      try (by apply prefix_app_r); by apply insert_subseteq.
Qed.

Lemma safeGetWeather_world city date w :
  (safeGetWeather city date w).2 = (getWeather city date w).2.
Proof.
  rewrite safeGetWeather_unfold. by destruct (getWeather city date w) as [[data|m] w'].
Qed.

(** ** Relations kept by the monad's operations *)

Section respects.
Context (R : relation World) `{!PreOrder R}.

Lemma respects_ret {A} (a : A) : respects R (ret a).
Proof. intros w. reflexivity. Qed.

Lemma respects_throw {A} message : respects R (@throw A message).
Proof. intros w. reflexivity. Qed.

Lemma respects_bind {A B} (m : M A) (k : A → M B) :
  respects R m → (∀ a, respects R (k a)) → respects R (bind m k).
Proof.
  intros Hm Hk w. unfold bind. specialize (Hm w).
  destruct (m w) as [[a|e] w']; [|done].
  etrans; [exact Hm|]. apply Hk.
Qed.

Lemma respects_try_catch {A} (m : M A) (h : string → M A) :
  respects R m → (∀ e, respects R (h e)) → respects R (try_catch m h).
Proof.
  intros Hm Hh w. unfold try_catch. specialize (Hm w).
  destruct (m w) as [[a|e] w']; [done|].
  etrans; [exact Hm|]. apply Hh.
Qed.

Lemma respects_readDB : respects R readDB.
Proof. intros w. reflexivity. Qed.

Lemma respects_for_each {S} offsets (body : Z → S → M S) acc :
  (∀ o a, respects R (body o a)) → respects R (for_each offsets body acc).
Proof.
  intros Hb. revert acc. induction offsets as [|o rest IH]; intros acc.
  - apply respects_ret.
  - apply respects_bind; [apply Hb | apply IH].
Qed.

End respects.

#[local] Instance cache_grows_preorder : PreOrder cache_grows.
Proof. unfold cache_grows. split; [by intros w | intros w1 w2 w3 ??; by etrans]. Qed.

#[local] Instance same_db_preorder : PreOrder same_db.
Proof. unfold same_db. split; [done | intros w1 w2 w3 ??; congruence]. Qed.

Lemma getWeather_cache_grows city date : respects cache_grows (getWeather city date).
Proof. intros w. apply getWeather_frame. Qed.

Lemma getWeather_same_db city date : respects same_db (getWeather city date).
Proof. intros w. apply getWeather_frame. Qed.

Lemma safeGetWeather_cache_grows city date :
  respects cache_grows (safeGetWeather city date).
Proof. intros w. rewrite safeGetWeather_world. apply getWeather_frame. Qed.

Lemma safeGetWeather_same_db city date : respects same_db (safeGetWeather city date).
Proof. intros w. rewrite safeGetWeather_world. apply getWeather_frame. Qed.

Lemma writeDB_cache_grows events : respects cache_grows (writeDB events).
Proof. intros w. by unfold cache_grows. Qed.

(** Goals [respects R m]: follow the structure of [m]. *)
Ltac respects_step :=
  lazymatch goal with
  | |- PreOrder _ => apply _
  | |- respects _ (ret _) => apply respects_ret
  | |- respects _ (throw _) => apply respects_throw
  | |- respects _ readDB => apply respects_readDB
  | |- respects cache_grows (safeGetWeather _ _) => apply safeGetWeather_cache_grows
  | |- respects same_db (safeGetWeather _ _) => apply safeGetWeather_same_db
  | |- respects cache_grows (writeDB _) => apply writeDB_cache_grows
  | |- respects ?R (for_each _ _ _) => refine (respects_for_each R _ _ _ (λ _ _, _))
  | |- respects ?R (bind _ _) => refine (respects_bind R _ _ _ (λ _, _))
  | |- respects ?R (try_catch _ _) => refine (respects_try_catch R _ _ _ (λ _, _))
  | |- respects _ (alternatives_body _ _ _) => unfold alternatives_body
  | |- _ => first [progress cbv zeta | progress case_match]
  end.

Lemma handle_cache_grows r : respects cache_grows (handle r).
Proof.
  destruct r; cbn [handle];
    unfold post_events, get_events, put_event, get_weather, post_weather_check,
      get_suitability, get_alternatives;
    cbv zeta; repeat respects_step.
Qed.

Lemma serve_cache_grows rs w : cache_grows w (serve rs w).
Proof.
  revert w. induction rs as [|r rs IH]; intros w; [done|].
  cbn. etrans; [apply (handle_cache_grows r w)|apply IH].
Qed.

(** ** The weather cache *)

(** C5: once a fetch for (city, date) has succeeded, every later fetch for
    the same pair, after any requests served in between, returns the payload
    of that first success from the cache: the world is left as it was, so no
    request goes to the provider, and normalising what it returns gives the
    same observation each time. *)
Theorem cached_fetch_is_repeated city date w data w1 rs :
  getWeather city date w = (Returned data, w1) →
  let w2 := serve rs w1 in
  getWeather city date w2 = (Returned data, w2) ∧
  safeGetWeather city date w2 = (Returned data, w2) ∧
  upstream (getWeather city date w2).2 = upstream w2 ∧
  (∀ data', (getWeather city date w2).1 = Returned data' →
            simplifyWeather <$> data' = simplifyWeather <$> data).
Proof.
  intros [Hc _]%getWeather_returned w2.
  assert (weatherCache w2 !! cache_key city date = Some data) as Hc2.
  { eapply lookup_weaken; [exact Hc | apply serve_cache_grows]. }
  pose proof (getWeather_hit _ _ _ _ Hc2) as Hit.
  rewrite safeGetWeather_unfold, Hit. split_and!; try done.
  by intros data' [= ->].
Qed.

(** C10: a failed provider fetch (the call does not complete, the status is
    not a success, or the response does not parse) on a miss throws and
    leaves the cache as it was, so the key is still absent and the next
    fetch for it goes to the provider again and gets whatever the provider
    answers then; a fetch puts in the cache nothing but the payload of a
    successful response. *)
Theorem failed_fetch_is_not_cached city date w :
  weatherCache w !! cache_key city date = None →
  fetch_failed (provider (length (upstream w)) (weather_url city)) →
  ∃ message w1,
    getWeather city date w = (Thrown message, w1) ∧
    safeGetWeather city date w = (Returned None, w1) ∧
    weatherCache w1 = weatherCache w ∧
    weatherCache w1 !! cache_key city date = None ∧
    upstream w1 = upstream w ++ [weather_url city] ∧
    upstream (getWeather city date w1).2 = upstream w1 ++ [weather_url city] ∧
    (getWeather city date w1).1 =
      match settle (provider (length (upstream w1)) (weather_url city)) with
      | inl message' => Thrown message'
      | inr data => Returned data
      end ∧
    (∀ c d w0 key payload,
       weatherCache (getWeather c d w0).2 !! key = Some payload →
       weatherCache w0 !! key = Some payload ∨
       key = cache_key c d ∧
       ∃ res, provider (length (upstream w0)) (weather_url c) = inr res ∧
              ok res = true ∧ json_body res = inr payload).
Proof.
  intros Hmiss Hfail.
  assert (∃ message, settle (provider (length (upstream w)) (weather_url city))
                     = inl message) as [message Hs].
  { unfold settle. destruct (provider _ _) as [m|res]; [by eexists|].
    destruct Hfail as [->|[m ->]]; [by eexists|]. destruct (ok res); by eexists. }
  exists message, (log_upstream (weather_url city) w).
  assert (getWeather city date w = (Thrown message, log_upstream (weather_url city) w))
    as Hget by (by rewrite getWeather_miss, Hs).
  rewrite safeGetWeather_unfold, Hget.
  rewrite (getWeather_miss city date (log_upstream _ _)) by done.
  split_and!; try done.
  - by destruct (settle (provider (length (upstream (log_upstream _ w))) _)).
  - by destruct (settle (provider (length (upstream (log_upstream _ w))) _)).
  - intros c d w0 key payload.
    destruct (weatherCache w0 !! cache_key c d) as [data|] eqn:Hc.
    + rewrite (getWeather_hit _ _ _ _ Hc). by left.
    + rewrite (getWeather_miss _ _ _ Hc). unfold settle.
      destruct (provider (length (upstream w0)) _) as [m|res] eqn:Hp; [cbn; by left|].
      destruct (ok res) eqn:Hok; [|cbn; by left].
      destruct (json_body res) as [m|data] eqn:Hb; [cbn; by left|].
      cbn. rewrite lookup_insert. case_decide as Hk; [|by left].
      intros [= ->]. right. split; [done|]. by exists res.
Qed.

(** ** Finding an event *)

Lemma find_event_Some id events i e :
  find_event id events = Some (i, e) →
  events !! i = Some e ∧ id_is id e = true ∧
  ∀ j e', (j < i)%nat → events !! j = Some e' → id_is id e' = false.
Proof.
  revert i. induction events as [|x rest IH]; intros i; cbn; [done|].
  destruct (id_is id x) eqn:Hx.
  - intros [= <- <-]. split_and!; [done..|]. intros; lia.
  - destruct (find_event id rest) as [[i' e'']|]; cbn; [|done].
    intros [= <- <-]. destruct (IH i' eq_refl) as (Hl & He & Hlt).
    split_and!; [done..|]. intros [|j] e' Hj; cbn.
    + by intros [= <-].
    + intros. eapply (Hlt j); [lia|done].
Qed.

Lemma find_event_None id events :
  find_event id events = None ↔ ∀ e, e ∈ events → id_is id e = false.
Proof.
  induction events as [|x rest IH]; cbn.
  - split; [intros _ e H; by apply elem_of_nil in H | done].
  - destruct (id_is id x) eqn:Hx.
    + split; [done|]. intros H. specialize (H x). rewrite Hx in H.
      discriminate H. by left.
    + destruct (find_event id rest) as [[i e]|]; cbn.
      * split; [done|]. intros H. assert (Some (i, e) = None) as Hn; [|done].
        apply IH. intros e' He'. apply H. by right.
      * split; [|done]. intros _ e [->|He]%elem_of_cons; [done|].
        by apply IH.
Qed.



(** ** [Object.assign] *)

Lemma Object_assign_lookup target source k :
  k ≠ "__proto__" →
  Object_assign target source !! k = from_option Some (target !! k) (source !! k).
Proof.
  intros Hk. unfold Object_assign. rewrite lookup_union.
  case_decide; rewrite ?lookup_delete_ne by done;
    by destruct (source !! k), (target !! k).
Qed.


(** ** Creating an event *)

(** C4: when the fetch for the request's city and date fails, creation still
    answers 200 with a new event whose weather is null, whose score is 0 and
    whose suitability is "Unknown", and appends that event to the store; the
    provider's error goes no further. *)
Theorem create_survives_failed_fetch req_body w message w1 :
  getWeather (ToString (req_body !! "city")) (ToString (req_body !! "date")) w
    = (Thrown message, w1) →
  ∃ event stored w',
    post_events req_body w = (Returned {| code := 200; body := EventBody event |}, w') ∧
    db_file w' = Some (default [] (db_file w) ++ [stored]) ∧
    event !! "weather" = Some (Some JNull) ∧
    event !! "score" = Some (Some (JInt 0)) ∧
    event !! "suitability" = Some (Some (JStr "Unknown")) ∧
    stored !! "weather" = Some JNull ∧
    stored !! "score" = Some (JInt 0) ∧
    stored !! "suitability" = Some (JStr "Unknown") ∧
    stored !! "id" = Some (JInt (Z.of_nat (length (default [] (db_file w))) + 1)) ∧
    event !! "id" = Some (stored !! "id") ∧
    (∀ k, k ∈ ["name"; "city"; "date"; "type"] →
          stored !! k = req_body !! k ∧ event !! k = Some (req_body !! k)).
Proof.
  intros Hget. apply getWeather_thrown in Hget as Hw1. destruct Hw1 as (_ & _ & ->).
  unfold post_events, bind, readDB, writeDB, ret.
  rewrite safeGetWeather_unfold, Hget. cbn.
  eexists _, _, _. split; [reflexivity|].
  split; [reflexivity|]. unfold stringify.
  split_and!; rewrite ?lookup_omap; try reflexivity.
  intros k Hk. rewrite lookup_omap.
  repeat (apply elem_of_cons in Hk as [->|Hk]; [by destruct (req_body !! _)|]).
  by apply elem_of_nil in Hk.
Qed.

(** ** Refreshing an event's weather *)

(** C2: when the event exists and the fetch for its city and date fails, the
    weather check answers 500 with an error and writes nothing: the file is
    exactly as it was, so the event keeps its weather, score, suitability and
    every other field, and the cache is untouched. *)
Theorem weather_check_failure_is_atomic id w i event message w1 :
  find_event id (default [] (db_file w)) = Some (i, event) →
  getWeather (ToString (event !! "city")) (ToString (event !! "date")) w
    = (Thrown message, w1) →
  ∃ w',
    post_weather_check id w
      = (Returned {| code := 500; body := ErrorBody "Weather check failed" |}, w') ∧
    db_file w' = db_file w ∧
    weatherCache w' = weatherCache w ∧
    find_event id (default [] (db_file w')) = Some (i, event) ∧
    default [] (db_file w') !! i = Some event.
Proof.
  intros Hfind Hget. apply getWeather_thrown in Hget as Hw1.
  destruct Hw1 as (_ & _ & ->).
  unfold post_weather_check, bind, readDB. cbn. rewrite Hfind.
  rewrite safeGetWeather_unfold, Hget. cbn.
  eexists. split; [reflexivity|]. cbn. split_and!; try done.
  by apply find_event_Some in Hfind as [? _].
Qed.

(** ** Updating an event *)


(** ** The shape of an event in a reply *)



Lemma formatEvent_lookup event k :
  formatEvent event !! k
  = if bool_decide (k ∈ event_fields) then Some (prop event k) else None.
Proof.
  unfold formatEvent, event_fields. cbv zeta.
  repeat (rewrite lookup_insert; case_decide;
          [subst k; by rewrite bool_decide_eq_true_2 by set_solver|]).
  rewrite lookup_singleton. case_decide;
    [subst k; by rewrite bool_decide_eq_true_2 by set_solver|].
  rewrite bool_decide_eq_false_2; [done|].
  intros Hin. repeat (apply elem_of_cons in Hin as [->|Hin]; [done|]).
  by apply elem_of_nil in Hin.
Qed.

Lemma formatEvent_dom event :
  dom (formatEvent event) = list_to_set event_fields.
Proof.
  apply set_eq. intros k. rewrite elem_of_dom, formatEvent_lookup, elem_of_list_to_set.
  case_bool_decide; [by split; [|eauto] | split; [by intros [? ?] | done]].
Qed.

Lemma prop_of_object (stored : object) k : prop (of_object stored) k = stored !! k.
Proof. unfold prop, of_object. rewrite lookup_fmap. by destruct (stored !! k). Qed.




(** ** Sorting the suggestions *)





(** ** Alternative dates *)



(** The loop, turn by turn: offset 0 is passed over, every other offset is
    one best-effort fetch, and the successes are pushed in order. *)
Lemma for_each_alternatives event offsets dates acc w :
  mapM (offsetDate (event !! "date")) (filter (λ o, o ≠ 0) offsets) = Some dates →
  ∃ results w',
    probe (ToString (event !! "city")) dates w = (Returned results, w') ∧
    for_each offsets (alternatives_body event) acc w
      = (Returned (acc ++ omap (suggestion_of (event !! "type")) results), w').
Proof.
  revert dates acc w. induction offsets as [|o rest IH]; intros dates acc w.
  - intros [= <-]. cbn. eexists _, _. split; [done|]. by rewrite app_nil_r.
  - cbn [for_each]. unfold bind at 1, alternatives_body at 1.
    destruct (decide (o = 0)) as [->|Ho].
    + rewrite filter_cons_False by (by intros ?). cbn. apply IH.
    + rewrite filter_cons_True by done. rewrite (proj2 (Z.eqb_neq o 0) Ho).
      cbn [mapM]. destruct (offsetDate (event !! "date") o) as [d|]; [|done]. cbn.
      destruct (mapM _ _) as [ds|] eqn:Hds; [|done]. cbn. intros [= <-].
      cbn [probe]. unfold bind.
      destruct (safeGetWeather_returns (ToString (event !! "city")) d w)
        as (r & w1 & ->).
      destruct r as [raw|]; cbn.
      * lazymatch goal with
        | |- context [for_each rest _ ?acc' w1] =>
          destruct (IH ds acc' w1 eq_refl) as (rs & w2 & -> & ->)
        end.
        eexists _, _. split; [done|]. by rewrite <-app_assoc.
      * destruct (IH ds acc w1 eq_refl) as (rs & w2 & -> & ->). by eexists _, _.
Qed.



(** ** What each handler does to the store *)

Lemma post_events_store req_body w :
  ∃ fetched w1 reply stored,
    safeGetWeather (ToString (req_body !! "city")) (ToString (req_body !! "date")) w
      = (Returned fetched, w1) ∧
    post_events req_body w = (Returned reply, set_db (stored_events w ++ [stored]) w1) ∧
    let snapshot := simplifyWeather <$> fetched in
    let s := getSuitability snapshot (req_body !! "type") in
    stored !! "id" = Some (JInt (Z.of_nat (length (stored_events w)) + 1)) ∧
    stored !! "weather" = Some (json_of_weather_opt snapshot) ∧
    stored !! "score" = Some (JInt (score s)) ∧
    stored !! "suitability" = Some (JStr (suitability s)).
Proof.
  destruct (safeGetWeather_returns (ToString (req_body !! "city"))
              (ToString (req_body !! "date")) w) as (fetched & w1 & Hs).
  exists fetched, w1. unfold post_events, bind, readDB, writeDB, ret. rewrite Hs.
  cbn. eexists _, _. split; [done|]. split; [reflexivity|].
  unfold stringify. cbn. rewrite !lookup_omap. done.
Qed.

Lemma post_weather_check_store id w i event :
  find_event id (stored_events w) = Some (i, event) →
  ∃ fetched w1,
    safeGetWeather (ToString (event !! "city")) (ToString (event !! "date")) w
      = (Returned fetched, w1) ∧
    match fetched with
    | None => (post_weather_check id w).2 = w1
    | Some raw =>
      let snapshot := simplifyWeather raw in
      let s := getSuitability (Some snapshot) (event !! "type") in
      ∃ event',
        (post_weather_check id w).2 = set_db (<[i := event']> (stored_events w)) w1 ∧
        event' !! "weather" = Some (json_of_weather snapshot) ∧
        event' !! "score" = Some (JInt (score s)) ∧
        event' !! "suitability" = Some (JStr (suitability s)) ∧
        ∀ k, k ∉ ["weather"; "score"; "suitability"] → event' !! k = event !! k
    end.
Proof.
  intros Hfind.
  destruct (safeGetWeather_returns (ToString (event !! "city"))
              (ToString (event !! "date")) w) as (fetched & w1 & Hs).
  exists fetched, w1. split; [done|].
  unfold post_weather_check, bind, readDB, writeDB, ret. cbn.
  fold (stored_events w). rewrite Hfind, Hs.
  destruct fetched as [raw|]; [|done]. cbn.
  eexists. split; [reflexivity|]. split_and!.
  - by rewrite !lookup_insert_ne, lookup_insert_eq by done.
  - by rewrite lookup_insert_ne, lookup_insert_eq by done.
  - by rewrite lookup_insert_eq.
  - intros k Hk. rewrite !lookup_insert_ne; [done|..]; intros <-; set_solver.
Qed.

Lemma put_event_store id req_body w i event :
  find_event id (stored_events w) = Some (i, event) →
  (put_event id req_body w).2
  = set_db (<[i := Object_assign event req_body]> (stored_events w)) w.
Proof.
  intros Hfind. unfold put_event, bind, readDB, writeDB, ret. cbn.
  fold (stored_events w). by rewrite Hfind.
Qed.

Lemma handle_same_db r : writes_store r = false → respects same_db (handle r).
Proof.
  destruct r; cbn [handle writes_store]; try done; intros _;
    unfold get_events, get_weather, get_suitability, get_alternatives;
    repeat respects_step.
Qed.

(** ** Score and suitability *)

(** C6, as amended: creation and a successful weather check write weather,
    score and suitability in one go, score and suitability being the two
    halves of one result of the scorer on the very observation stored as the
    event's weather; a failed weather check and every request other than
    create, update and weather check leave the store as it is; an update
    leaves score and suitability of the event alone unless the request
    provides them, and then takes each from the request on its own. *)
Theorem score_and_suitability_come_from_one_snapshot :
  (∀ req_body w, ∃ fetched stored,
     (safeGetWeather (ToString (req_body !! "city")) (ToString (req_body !! "date")) w).1
       = Returned fetched ∧
     stored_events (step w (POST_events req_body)) = stored_events w ++ [stored] ∧
     let snapshot := simplifyWeather <$> fetched in
     let s := getSuitability snapshot (req_body !! "type") in
     stored !! "weather" = Some (json_of_weather_opt snapshot) ∧
     stored !! "score" = Some (JInt (score s)) ∧
     stored !! "suitability" = Some (JStr (suitability s))) ∧
  (∀ id w i event,
     find_event id (stored_events w) = Some (i, event) →
     ∃ fetched,
       (safeGetWeather (ToString (event !! "city")) (ToString (event !! "date")) w).1
         = Returned fetched ∧
       match fetched with
       | None => db_file (step w (POST_weather_check id)) = db_file w
       | Some raw =>
         let snapshot := simplifyWeather raw in
         let s := getSuitability (Some snapshot) (event !! "type") in
         ∃ event',
           stored_events (step w (POST_weather_check id))
             = <[i := event']> (stored_events w) ∧
           event' !! "weather" = Some (json_of_weather snapshot) ∧
           event' !! "score" = Some (JInt (score s)) ∧
           event' !! "suitability" = Some (JStr (suitability s))
       end) ∧
  (∀ id w, find_event id (stored_events w) = None →
           db_file (step w (POST_weather_check id)) = db_file w) ∧
  (∀ id req_body w i event,
     find_event id (stored_events w) = Some (i, event) →
     ∃ event',
       stored_events (step w (PUT_event id req_body)) = <[i := event']> (stored_events w) ∧
       event' !! "score" = from_option Some (event !! "score") (req_body !! "score") ∧
       event' !! "suitability"
         = from_option Some (event !! "suitability") (req_body !! "suitability")) ∧
  (∀ r w, writes_store r = false → db_file (step w r) = db_file w).
Proof.
  split_and!.
  - intros req_body w.
    destruct (post_events_store req_body w)
      as (fetched & w1 & reply & stored & Hs & Hp & _ & Hw & Hsc & Hsu).
    exists fetched, stored. unfold step. cbn [handle]. by rewrite Hs, Hp.
  - intros id w i event Hfind.
    destruct (post_weather_check_store id w i event Hfind) as (fetched & w1 & Hs & H).
    exists fetched. rewrite Hs. split; [done|]. unfold step. cbn [handle].
    destruct fetched as [raw|].
    + destruct H as (event' & -> & Hw & Hsc & Hsu & _). by exists event'.
    + rewrite H. pose proof (safeGetWeather_same_db
        (ToString (event !! "city")) (ToString (event !! "date")) w) as Hdb.
      by rewrite Hs in Hdb.
  - intros id w Hfind. unfold step. cbn [handle].
    unfold post_weather_check, bind, readDB. cbn. fold (stored_events w).
    by rewrite Hfind.
  - intros id req_body w i event Hfind. exists (Object_assign event req_body).
    unfold step. cbn [handle]. rewrite (put_event_store _ _ _ _ _ Hfind).
    split; [done|]. by rewrite !Object_assign_lookup.
  - intros r w Hr. apply (handle_same_db r Hr w).
Qed.

(** ** Event ids *)

(** A request that provides no [id] keeps every record in its place with its
    id, and at most appends one record numbered with the new count. *)
Lemma step_keeps_ids r w :
  ¬ provides_id r →
  (∀ i e, stored_events w !! i = Some e →
          ∃ e', stored_events (step w r) !! i = Some e' ∧ e' !! "id" = e !! "id") ∧
  (length (stored_events (step w r)) = length (stored_events w) ∨
   ∃ stored,
     stored_events (step w r) = stored_events w ++ [stored] ∧
     stored !! "id" = Some (JInt (Z.of_nat (length (stored_events w)) + 1))).
Proof.
  intros Hr.
  destruct (writes_store r) eqn:Hw.
  - destruct r as [req_body| |id req_body| |id| |]; try done; unfold step; cbn [handle].
    + destruct (post_events_store req_body w)
        as (fetched & w1 & reply & stored & _ & -> & Hid & _).
      cbn. split; [|right; by exists stored].
      intros i e Hi. exists e. split; [|done]. by apply lookup_app_l_Some.
    + destruct (find_event id (stored_events w)) as [[i event]|] eqn:Hfind.
      * rewrite (put_event_store _ _ _ _ _ Hfind). cbn.
        apply find_event_Some in Hfind as (Hi & _ & _).
        split; [|left; apply length_insert]. intros j e Hj.
        destruct (decide (i = j)) as [<-|Hne].
        -- eexists. split; [apply list_lookup_insert_eq; by eapply lookup_lt_Some|].
           rewrite Object_assign_lookup by done. cbn in Hr.
           apply eq_None_not_Some in Hr. rewrite Hr. cbn. congruence.
        -- exists e. by rewrite list_lookup_insert_ne.
      * unfold put_event, bind, readDB. cbn. fold (stored_events w). rewrite Hfind.
        cbn. split; [by eauto|by left].
    + destruct (find_event id (stored_events w)) as [[i event]|] eqn:Hfind.
      * destruct (post_weather_check_store id w i event Hfind) as (fetched & w1 & Hs & H).
        pose proof (safeGetWeather_same_db
          (ToString (event !! "city")) (ToString (event !! "date")) w) as Hdb.
        rewrite Hs in Hdb. cbn in Hdb.
        apply find_event_Some in Hfind as (Hi & _ & _).
        destruct fetched as [raw|].
        -- destruct H as (event' & -> & _ & _ & _ & Hk). cbn.
           split; [|left; apply length_insert]. intros j e Hj.
           destruct (decide (i = j)) as [<-|Hne].
           ++ exists event'.
              split; [apply list_lookup_insert_eq; by eapply lookup_lt_Some|].
              rewrite Hk by set_solver. congruence.
           ++ exists e. by rewrite list_lookup_insert_ne.
        -- rewrite H. unfold stored_events. rewrite Hdb. split; [by eauto|by left].
      * unfold post_weather_check, bind, readDB. cbn. fold (stored_events w).
        rewrite Hfind. cbn. split; [by eauto|by left].
  - pose proof (handle_same_db r Hw w) as Hdb. unfold same_db in Hdb.
    unfold step, stored_events. rewrite Hdb. split; [by eauto|by left].
Qed.

Lemma step_ids_sequential r w :
  ¬ provides_id r →
  ids_sequential (stored_events w) → ids_sequential (stored_events (step w r)).
Proof.
  intros Hr Hseq. destruct (step_keeps_ids r w Hr) as [Hkeep Hlen].
  intros i e' Hi.
  destruct (stored_events w !! i) as [e|] eqn:Hold.
  - destruct (Hkeep i e Hold) as (e'' & He'' & Hid).
    rewrite Hi in He''. injection He'' as <-. rewrite Hid. by apply Hseq.
  - apply lookup_ge_None in Hold. apply lookup_lt_Some in Hi as Hlt.
    destruct Hlen as [Hlen|(stored & Happ & Hid)]; [lia|].
    rewrite Happ in Hi, Hlt. rewrite length_app in Hlt. cbn in Hlt.
    assert (i = length (stored_events w)) as -> by lia.
    rewrite lookup_app_r, Nat.sub_diag in Hi by lia. by injection Hi as <-.
Qed.

(** C7, as amended: creation numbers the new event with the current count
    plus one; a request that is not an update providing an [id] field keeps
    the id of every stored event; so, from a store numbered 1, 2, 3, ... (an
    empty one to begin with) and as long as no update provides [id], the ids
    stay 1, 2, 3, ... in order, no two events sharing one; an update that
    provides [id] puts the provided value in its place. *)
Theorem ids_count_up_and_stay :
  (∀ req_body w, ∃ stored,
     stored_events (step w (POST_events req_body)) = stored_events w ++ [stored] ∧
     stored !! "id" = Some (JInt (Z.of_nat (length (stored_events w)) + 1))) ∧
  (∀ r w i e,
     ¬ provides_id r →
     stored_events w !! i = Some e →
     ∃ e', stored_events (step w r) !! i = Some e' ∧ e' !! "id" = e !! "id") ∧
  (∀ w, db_file w = None ∨ db_file w = Some [] → ids_sequential (stored_events w)) ∧
  (∀ rs w,
     Forall (λ r, ¬ provides_id r) rs →
     ids_sequential (stored_events w) →
     ids_sequential (stored_events (serve rs w))) ∧
  (∀ events i j e e',
     ids_sequential events →
     events !! i = Some e → events !! j = Some e' → e !! "id" = e' !! "id" →
     i = j) ∧
  (∀ id req_body w i event v,
     find_event id (stored_events w) = Some (i, event) →
     req_body !! "id" = Some v →
     ∃ e', stored_events (step w (PUT_event id req_body)) !! i = Some e' ∧
           e' !! "id" = Some v).
Proof.
  split_and!.
  - intros req_body w.
    destruct (post_events_store req_body w)
      as (fetched & w1 & reply & stored & _ & Hp & Hid & _).
    exists stored. unfold step. cbn [handle]. by rewrite Hp.
  - intros r w i e Hr. by apply step_keeps_ids.
  - intros w [Hw|Hw] i e; unfold stored_events; by rewrite Hw.
  - intros rs. induction rs as [|r rs IH]; intros w Hrs Hseq; [done|].
    apply Forall_cons in Hrs as [Hr Hrs]. cbn. apply IH; [done|].
    by apply step_ids_sequential.
  - intros events i j e e' Hseq Hi Hj Hid.
    rewrite (Hseq i e Hi), (Hseq j e' Hj) in Hid.
    injection Hid as Hid. lia.
  - intros id req_body w i event v Hfind Hv.
    unfold step. cbn [handle]. rewrite (put_event_store _ _ _ _ _ Hfind). cbn.
    apply find_event_Some in Hfind as (Hi & _ & _).
    eexists. split; [apply list_lookup_insert_eq; by eapply lookup_lt_Some|].
    by rewrite Object_assign_lookup, Hv.
Qed.

(** * Further properties of the code *)

(** ** The normaliser *)


(** ** The scorer *)

(** X2: the score of an observation is a multiple of 5.  The sum of the base and
    the adjustments lies between -5 and 100, so [Math.min (100, _)] never
    changes it and [Math.max (0, _)] changes nothing but -5. *)
Theorem score_is_a_multiple_of_five w type :
  let sum := fold_right Z.add ScorerSpec.base (ScorerSpec.adjustments w type) in
  -5 ≤ sum ≤ 100 ∧
  score (getSuitability (Some w) type) = Z.max 0 sum ∧
  (sum ≠ -5 → score (getSuitability (Some w) type) = sum) ∧
  (5 | score (getSuitability (Some w) type)).
Proof.
  cbv zeta. rewrite !getSuitability_scorer.
  unfold ScorerSpec.scorer, ScorerSpec.score_of, ScorerSpec.adjustments, ScorerSpec.base.
  cbn [score]. rewrite clamp_max_min, !is_type_strict_eq.
  pose proof (wedding_not_sports type) as Hty.
  destruct (strict_eq_str type "wedding"), (strict_eq_str type "sports");
    try (by specialize (Hty eq_refl));
    destruct (ScorerSpec.contains_ci (description w) "clear"),
             (ScorerSpec.contains_ci (description w) "cloud"),
             (ScorerSpec.contains_ci (description w) "rain"),
             (Qgtb (wind w) 10),
             (Qltb (temp w) 283 || Qgtb (temp w) 303);
    cbn; (split; [lia|]); (split; [lia|]); (split; [lia|]);
    match goal with |- (5 | ?n) => exists (n / 5); reflexivity end.
Qed.

(** X3: for one and the same observation a wedding scores at least as much as
    any other event type and a sports event at most as much; every type that
    is neither, whatever value it is, scores the same. *)
Theorem score_by_event_type w type :
  let s t := score (getSuitability (Some w) t) in
  s (Some (JStr "sports")) ≤ s type ≤ s (Some (JStr "wedding")) ∧
  (strict_eq_str type "wedding" = false → strict_eq_str type "sports" = false →
   s type = s undefined).
Proof.
  cbv beta zeta. rewrite !getSuitability_scorer.
  unfold ScorerSpec.scorer, ScorerSpec.score_of, ScorerSpec.adjustments, ScorerSpec.base.
  cbn [score]. rewrite !clamp_max_min, !is_type_strict_eq.
  pose proof (wedding_not_sports type) as Hty.
  change (strict_eq_str (Some (JStr "sports")) "wedding") with false.
  change (strict_eq_str (Some (JStr "sports")) "sports") with true.
  change (strict_eq_str (Some (JStr "wedding")) "wedding") with true.
  change (strict_eq_str (Some (JStr "wedding")) "sports") with false.
  change (strict_eq_str undefined "wedding") with false.
  change (strict_eq_str undefined "sports") with false.
  destruct (strict_eq_str type "wedding"), (strict_eq_str type "sports");
    try (by specialize (Hty eq_refl));
    destruct (ScorerSpec.contains_ci (description w) "clear"),
             (ScorerSpec.contains_ci (description w) "cloud"),
             (ScorerSpec.contains_ci (description w) "rain"),
             (Qgtb (wind w) 10),
             (Qltb (temp w) 283 || Qgtb (temp w) 303);
    cbn; (split; [lia|]); done.
Qed.

(** ** The cached fetch *)

Lemma append_assoc (a b c : string) : (a +:+ b) +:+ c = a +:+ b +:+ c.
Proof.
  induction a as [|x a IH]; [done|].
  change (String x ((a +:+ b) +:+ c) = String x (a +:+ b +:+ c)). by rewrite IH.
Qed.

(** X5: the cache key is the city, a dash and the date run together, so a city
    ending in "-x" with date "y" has the key of the same city without that
    ending with date "x-y": once the first pair has been fetched, a fetch
    for the second is answered from the cache with the first pair's payload,
    and nothing is asked of the provider. *)
Theorem cache_key_collision city d1 d2 w data w1 :
  getWeather (city +:+ "-" +:+ d1) d2 w = (Returned data, w1) →
  cache_key (city +:+ "-" +:+ d1) d2 = cache_key city (d1 +:+ "-" +:+ d2) ∧
  getWeather city (d1 +:+ "-" +:+ d2) w1 = (Returned data, w1).
Proof.
  intros [Hc _]%getWeather_returned.
  assert (cache_key (city +:+ "-" +:+ d1) d2 = cache_key city (d1 +:+ "-" +:+ d2)) as Hk.
  { unfold cache_key. by rewrite !append_assoc. }
  split; [exact Hk|]. apply getWeather_hit. by rewrite <-Hk.
Qed.

(** X6: the date takes no part in the request: on a miss, the provider is asked
    the same URL, built from the city alone, whatever the date, and the
    fetch returns or throws the same. *)
Theorem date_is_not_sent_upstream city d1 d2 w :
  weatherCache w !! cache_key city d1 = None →
  weatherCache w !! cache_key city d2 = None →
  (getWeather city d1 w).1 = (getWeather city d2 w).1 ∧
  upstream (getWeather city d1 w).2 = upstream w ++ [weather_url city] ∧
  upstream (getWeather city d2 w).2 = upstream w ++ [weather_url city].
Proof.
  intros H1 H2. rewrite (getWeather_miss _ _ _ H1), (getWeather_miss _ _ _ H2).
  by destruct (settle (provider (length (upstream w)) (weather_url city))).
Qed.

(** X7: [safeGetWeather] never throws: it returns whatever [getWeather]
    returns, and [null] when [getWeather] throws, and it leaves the world as
    [getWeather] does.  So its result is [null] (or another falsy value)
    when the fetch failed and also when the fetch succeeded with a body that
    parses to a falsy value: the callers cannot tell the two apart. *)
Theorem safeGetWeather_never_throws city date w :
  ∃ r,
    safeGetWeather city date w = (Returned r, (getWeather city date w).2) ∧
    (∀ data, (getWeather city date w).1 = Returned data → r = data) ∧
    (∀ message, (getWeather city date w).1 = Thrown message → r = None) ∧
    (r = None ↔
     (∃ message, (getWeather city date w).1 = Thrown message) ∨
     (getWeather city date w).1 = Returned None).
Proof.
  rewrite safeGetWeather_unfold.
  destruct (getWeather city date w) as [[data|message] w']; cbn.
  - exists data. split; [done|]. split; [by intros ? [= ->]|]. split; [done|].
    split; [intros ->; by right | intros [[? ?]|[= ->]]; done].
  - exists None. split; [done|]. split; [done|]. split; [done|].
    split; [intros _; left; by eexists | done].
Qed.

(** ** Routes addressed by id *)

(** X8: when no stored record has a number equal to the route parameter as its
    id (as for a parameter that [parseInt] turns into [NaN], and for records
    whose id is a string or missing), each of the four id routes answers 404
    "Event not found" and leaves the world exactly as it was. *)
Theorem id_routes_answer_404 id req_body w :
  (∀ e n q, e ∈ stored_events w → id = Some n → e !! "id" = Some (JNum q) →
            Qeq_bool q (inject_Z n) = false) →
  let not_found :=
    (Returned {| code := 404; body := ErrorBody "Event not found" |}, w) in
  put_event id req_body w = not_found ∧
  post_weather_check id w = not_found ∧
  get_suitability id w = not_found ∧
  get_alternatives id w = not_found.
Proof.
  intros Hno not_found.
  assert (find_event id (stored_events w) = None) as Hfind.
  { apply find_event_None. intros e He. unfold id_is.
    destruct id as [n|]; [|done].
    destruct (e !! "id") as [[| |q| | |]|] eqn:Hid; try done. by eapply Hno. }
  unfold put_event, post_weather_check, get_suitability, get_alternatives,
    bind, readDB.
  cbn. fold (stored_events w). by rewrite Hfind.
Qed.

(** ** GET /weather/:city/:date *)

(** X9: the raw-weather route answers 200 with the payload when the fetch
    returns one that is not falsy, that payload being cached under the
    pair's key; it answers 500 with its error when the fetch throws, the
    cache being as it was, and also when the fetch returns a falsy payload,
    which is cached all the same; in every case the store is not touched. *)
Theorem get_weather_replies city date w :
  db_file (get_weather city date w).2 = db_file w ∧
  match (getWeather city date w).1 with
  | Returned (Some raw) =>
    (get_weather city date w).1 = Returned {| code := 200; body := RawBody raw |} ∧
    weatherCache (get_weather city date w).2 !! cache_key city date = Some (Some raw)
  | Returned None =>
    (get_weather city date w).1
      = Returned {| code := 500;
                    body := ErrorBody "Weather API unavailable or invalid location" |} ∧
    weatherCache (get_weather city date w).2 !! cache_key city date = Some None
  | Thrown _ =>
    (get_weather city date w).1
      = Returned {| code := 500;
                    body := ErrorBody "Weather API unavailable or invalid location" |} ∧
    weatherCache (get_weather city date w).2 = weatherCache w
  end.
Proof.
  pose proof (getWeather_frame city date w) as (Hdb & _ & _).
  unfold get_weather, bind. rewrite safeGetWeather_unfold.
  destruct (getWeather city date w) as [[[raw|]|message] w'] eqn:Hget; cbn in *.
  - split; [done|]. split; [done|]. by apply getWeather_returned in Hget as [? _].
  - split; [done|]. split; [done|]. by apply getWeather_returned in Hget as [? _].
  - split; [done|]. split; [done|].
    by apply getWeather_thrown in Hget as (_ & _ & ->).
Qed.

(** ** A successful weather check *)

(** What a weather check returns and writes when its fetch succeeds. *)
Lemma post_weather_check_returns id w i event raw w1 :
  find_event id (stored_events w) = Some (i, event) →
  safeGetWeather (ToString (event !! "city")) (ToString (event !! "date")) w
    = (Returned (Some raw), w1) →
  ∃ event',
    post_weather_check id w
      = (Returned {| code := 200; body := EventBody (formatEvent (of_object event')) |},
         set_db (<[i := event']> (stored_events w)) w1) ∧
    event' !! "weather" = Some (json_of_weather (simplifyWeather raw)) ∧
    event' !! "score"
      = Some (JInt (score (getSuitability (Some (simplifyWeather raw)) (event !! "type")))) ∧
    event' !! "suitability"
      = Some (JStr (suitability
                      (getSuitability (Some (simplifyWeather raw)) (event !! "type")))) ∧
    (∀ k, k ∉ ["weather"; "score"; "suitability"] → event' !! k = event !! k) ∧
    <[i := event']> (stored_events w) !! i = Some event' ∧
    (∀ j, j ≠ i → <[i := event']> (stored_events w) !! j = stored_events w !! j).
Proof.
  intros Hfind Hs.
  unfold post_weather_check, bind, readDB, writeDB, ret. cbn.
  fold (stored_events w). rewrite Hfind, Hs. cbn.
  eexists. split; [reflexivity|].
  apply find_event_Some in Hfind as (Hi & _ & _).
  split_and!.
  - by rewrite !lookup_insert_ne, lookup_insert_eq by done.
  - by rewrite lookup_insert_ne, lookup_insert_eq by done.
  - by rewrite lookup_insert_eq.
  - intros k Hk.
    rewrite !lookup_insert_ne; [done|..]; intros <-; apply Hk;
      repeat first [by left | right].
  - apply list_lookup_insert_eq. by eapply lookup_lt_Some.
  - intros j Hj. by apply list_lookup_insert_ne.
Qed.

(** X10: when the fetch for the event's city and date succeeds, the weather check
    answers 200 with the event and rewrites that one record: its weather is
    the normalised payload, its score and suitability those of the scorer
    for it and the event's type, every other field of the record and every
    other record is as before. *)
Theorem weather_check_success id w i event raw w1 :
  find_event id (stored_events w) = Some (i, event) →
  safeGetWeather (ToString (event !! "city")) (ToString (event !! "date")) w
    = (Returned (Some raw), w1) →
  ∃ event',
    post_weather_check id w
      = (Returned {| code := 200; body := EventBody (formatEvent (of_object event')) |},
         set_db (<[i := event']> (stored_events w)) w1) ∧
    event' !! "weather" = Some (json_of_weather (simplifyWeather raw)) ∧
    event' !! "score"
      = Some (JInt (score (getSuitability (Some (simplifyWeather raw)) (event !! "type")))) ∧
    event' !! "suitability"
      = Some (JStr (suitability
                      (getSuitability (Some (simplifyWeather raw)) (event !! "type")))) ∧
    (∀ k, k ∉ ["weather"; "score"; "suitability"] → event' !! k = event !! k) ∧
    <[i := event']> (stored_events w) !! i = Some event' ∧
    (∀ j, j ≠ i → <[i := event']> (stored_events w) !! j = stored_events w !! j).
Proof.
  intros Hfind Hs.
  destruct (post_weather_check_returns id w i event raw w1 Hfind Hs) as (event' & H).
  by exists event'.
Qed.

(** ** Alternatives for an event without a valid date *)

Lemma get_alternatives_throws id w i event :
  find_event id (stored_events w) = Some (i, event) →
  offsetDate (event !! "date") (-3) = None →
  get_alternatives id w = (Thrown "Invalid time value", w).
Proof.
  intros Hfind Hdate. unfold get_alternatives, bind, readDB. cbn.
  fold (stored_events w). rewrite Hfind.
  change (seqZ (-3) 7) with [-3; -2; -1; 0; 1; 2; 3].
  cbn [for_each]. unfold bind, alternatives_body at 1.
  change (-3 =? 0) with false. cbv iota. by rewrite Hdate.
Qed.

(** X11: when the host cannot turn the event's date into a time, the first turn
    of the loop throws the [RangeError] of [toISOString]: the handler sends
    no reply, fetches nothing and leaves the world as it was. *)
Theorem alternatives_throw_on_invalid_date id w i event :
  find_event id (stored_events w) = Some (i, event) →
  offsetDate (event !! "date") (-3) = None →
  get_alternatives id w = (Thrown "Invalid time value", w).
Proof. apply get_alternatives_throws. Qed.

(** ** The reply as JSON *)

(** X13: serialising the formatted form of a stored record keeps exactly those of
    the eight fields that the record has, with the record's values: a field
    outside the eight is dropped by [formatEvent], and one of the eight that
    the record lacks is [undefined] in the formatted object and so absent
    from the JSON. *)
Theorem formatted_record_as_json (stored : object) :
  (∀ k, stringify (formatEvent (of_object stored)) !! k
        = if bool_decide (k ∈ event_fields) then stored !! k else None) ∧
  dom (stringify (formatEvent (of_object stored)))
  = dom stored ∩ list_to_set event_fields.
Proof.
  assert (∀ k, stringify (formatEvent (of_object stored)) !! k
               = if bool_decide (k ∈ event_fields) then stored !! k else None) as Hk.
  { intros k. unfold stringify. rewrite lookup_omap, formatEvent_lookup, prop_of_object.
    by case_bool_decide. }
  split; [exact Hk|]. apply set_eq. intros k.
  rewrite elem_of_intersection, !elem_of_dom, Hk, elem_of_list_to_set.
  case_bool_decide; [tauto|]. split; [by intros [? ?] | tauto].
Qed.

(** ** The record a creation stores *)

(** The fields of the record that [post_events] appends. *)
Lemma post_events_fields req_body w :
  ∃ stored,
    stored_events (step w (POST_events req_body)) = stored_events w ++ [stored] ∧
    (∀ k, k ∈ ["name"; "city"; "date"; "type"] → stored !! k = req_body !! k) ∧
    (∀ k, k ∈ ["id"; "score"; "suitability"; "weather"] → is_Some (stored !! k)) ∧
    (∀ k, k ∉ event_fields → stored !! k = None) ∧
    dom stored
    = list_to_set ["id"; "score"; "suitability"; "weather"]
      ∪ (dom req_body ∩ list_to_set ["name"; "city"; "date"; "type"]).
Proof.
  destruct (safeGetWeather_returns (ToString (req_body !! "city"))
              (ToString (req_body !! "date")) w) as (fetched & w1 & Hs).
  unfold step. cbn [handle]. unfold post_events, bind, readDB, writeDB, ret.
  rewrite Hs. cbn -[stringify list_to_set]. fold (stored_events w).
  eexists. split; [reflexivity|].
  match goal with |- context [stringify ?o] => set (newEvent := o) end.
  assert (∀ k, stringify newEvent !! k
               = if bool_decide (k ∈ ["id"; "score"; "suitability"; "weather"])
                 then mjoin (newEvent !! k)
                 else if bool_decide (k ∈ ["name"; "city"; "date"; "type"])
                      then req_body !! k else None) as Hk.
  { intros k. unfold stringify. rewrite lookup_omap. subst newEvent.
    repeat (rewrite lookup_insert; case_decide; [subst k; by destruct (req_body !! _)|]).
    rewrite lookup_singleton. case_decide; [by subst k|].
    rewrite !bool_decide_eq_false_2; [done|..]; intros Hin;
      repeat (apply elem_of_cons in Hin as [->|Hin]; [done|]);
      by apply elem_of_nil in Hin. }
  assert (∀ k, k ∈ ["id"; "score"; "suitability"; "weather"] →
               is_Some (stringify newEvent !! k)) as Hfix.
  { intros k Hin. rewrite Hk, bool_decide_eq_true_2 by done. subst newEvent.
    repeat (apply elem_of_cons in Hin as [->|Hin]; [by eexists|]).
    by apply elem_of_nil in Hin. }
  split_and!.
  - intros k Hin. rewrite Hk. rewrite bool_decide_eq_false_2, bool_decide_eq_true_2; [done..|].
    intros Hin'. repeat (apply elem_of_cons in Hin as [->|Hin]; [set_solver|]).
    by apply elem_of_nil in Hin.
  - exact Hfix.
  - intros k Hnot. rewrite Hk, !bool_decide_eq_false_2; [done|..];
      intros Hin; apply Hnot; unfold event_fields; set_solver.
  - apply set_eq. intros k.
    rewrite elem_of_union, elem_of_intersection, !elem_of_dom, !elem_of_list_to_set.
    split.
    + intros Hsome. rewrite Hk in Hsome.
      case_bool_decide; [by left|]. case_bool_decide; [by right | by destruct Hsome].
    + intros [Hin|[Hsome Hin]]; [by apply Hfix|].
      destruct (decide (k ∈ ["id"; "score"; "suitability"; "weather"]))
        as [Hfixed|Hfixed]; [by apply Hfix|].
      by rewrite Hk, bool_decide_eq_false_2, bool_decide_eq_true_2.
Qed.

(** X14: creation stores a record that always has id, score, suitability and
    weather, and has name, city, date and type exactly when the request
    provides them, with the request's values; nothing else of the request is
    stored.  So a request without a name stores an event without one. *)
Theorem created_record_fields req_body w :
  ∃ stored,
    stored_events (step w (POST_events req_body)) = stored_events w ++ [stored] ∧
    (∀ k, k ∈ ["name"; "city"; "date"; "type"] → stored !! k = req_body !! k) ∧
    (∀ k, k ∈ ["id"; "score"; "suitability"; "weather"] → is_Some (stored !! k)) ∧
    (∀ k, k ∉ event_fields → stored !! k = None) ∧
    dom stored
    = list_to_set ["id"; "score"; "suitability"; "weather"]
      ∪ (dom req_body ∩ list_to_set ["name"; "city"; "date"; "type"]).
Proof.
  destruct (post_events_fields req_body w) as (stored & H).
  by exists stored.
Qed.

(** ** Finding what was just created *)

Lemma Qeq_bool_inject_Z a b : Qeq_bool (inject_Z a) (inject_Z b) = bool_decide (a = b).
Proof.
  destruct (Qeq_bool (inject_Z a) (inject_Z b)) eqn:H.
  - apply Qeq_bool_eq in H. unfold Qeq in H. cbn in H.
    rewrite bool_decide_eq_true_2; [done|lia].
  - case_bool_decide as Hab; [|done]. subst b.
    assert (Qeq_bool (inject_Z a) (inject_Z a) = true) as Ht
      by (apply Qeq_bool_iff; reflexivity).
    congruence.
Qed.

Lemma find_event_last id events e :
  (∀ e', e' ∈ events → id_is id e' = false) →
  id_is id e = true →
  find_event id (events ++ [e]) = Some (length events, e).
Proof.
  intros Hno He. induction events as [|x rest IH]; cbn.
  - by rewrite He.
  - rewrite (Hno x) by (by left). rewrite IH; [done|].
    intros e' He'. apply Hno. by right.
Qed.

(** The appended record is the first one with the new id. *)
Lemma post_events_found req_body w :
  ids_sequential (stored_events w) →
  let w1 := step w (POST_events req_body) in
  let n := length (stored_events w) in
  ∃ stored,
    stored_events w1 = stored_events w ++ [stored] ∧
    find_event (Some (Z.of_nat n + 1)) (stored_events w1) = Some (n, stored) ∧
    get_suitability (Some (Z.of_nat n + 1)) w1
      = (Returned {| code := 200;
                     body := SuitabilityBody (stored !! "score") (stored !! "suitability") |},
         w1).
Proof.
  intros Hseq w1 n.
  destruct (post_events_store req_body w)
    as (fetched & w0 & reply & stored & _ & Hp & Hid & _).
  assert (stored_events w1 = stored_events w ++ [stored]) as Hw1.
  { subst w1. unfold step. cbn [handle]. by rewrite Hp. }
  assert (find_event (Some (Z.of_nat n + 1)) (stored_events w1) = Some (n, stored))
    as Hfind.
  { rewrite Hw1. apply find_event_last.
    - intros e' [j Hj]%list_elem_of_lookup. unfold id_is.
      rewrite (Hseq j e' Hj). unfold JInt. rewrite Qeq_bool_inject_Z.
      apply lookup_lt_Some in Hj. apply bool_decide_eq_false_2. subst n. lia.
    - unfold id_is. rewrite Hid. unfold JInt. rewrite Qeq_bool_inject_Z.
      by apply bool_decide_eq_true_2. }
  exists stored. split; [done|]. split; [done|].
  unfold get_suitability, bind, readDB. cbn. fold (stored_events w1).
  by rewrite Hfind.
Qed.

(** X15: in a store numbered 1, 2, 3, ..., the event a creation appends is the
    one its new id finds, and asking for its suitability right away answers
    200 with the score and suitability stored at creation, fetching nothing
    and changing nothing. *)
Theorem created_event_is_found req_body w :
  ids_sequential (stored_events w) →
  let w1 := step w (POST_events req_body) in
  let n := length (stored_events w) in
  ∃ stored,
    stored_events w1 = stored_events w ++ [stored] ∧
    find_event (Some (Z.of_nat n + 1)) (stored_events w1) = Some (n, stored) ∧
    get_suitability (Some (Z.of_nat n + 1)) w1
      = (Returned {| code := 200;
                     body := SuitabilityBody (stored !! "score") (stored !! "suitability") |},
         w1).
Proof.
  intros Hseq w1 n.
  destruct (post_events_found req_body w Hseq) as (stored & H).
  by exists stored.
Qed.

(** ** Ties among the alternatives *)

Lemma sort_insert_keeps_ties s x l :
  filter (λ y, sg_score y = s) (sort_insert by_score_desc x l)
  = filter (λ y, sg_score y = s) (x :: l).
Proof.
  induction l as [|y r IH]; cbn [sort_insert]; [done|].
  unfold by_score_desc at 1. case_match eqn:Hc; [done|].
  apply Z.leb_gt in Hc.
  destruct (decide (sg_score x = s)) as [Hx|Hx].
  - rewrite (filter_cons_False _ y) by lia.
    rewrite IH, !filter_cons_True by done.
    by rewrite (filter_cons_False _ y) by lia.
  - rewrite (filter_cons_False _ x) by done.
    destruct (decide (sg_score y = s)) as [Hy|Hy].
    + rewrite !(filter_cons_True _ y) by done. rewrite IH.
      by rewrite filter_cons_False.
    + rewrite !(filter_cons_False _ y) by done. rewrite IH.
      by rewrite filter_cons_False.
Qed.

Lemma Array_sort_keeps_ties s l :
  filter (λ y, sg_score y = s) (Array_sort by_score_desc l)
  = filter (λ y, sg_score y = s) l.
Proof.
  induction l as [|x r IH]; [done|].
  change (Array_sort by_score_desc (x :: r))
    with (sort_insert by_score_desc x (Array_sort by_score_desc r)).
  rewrite sort_insert_keeps_ties.
  destruct (decide (sg_score x = s)).
  - by rewrite !filter_cons_True, IH.
  - by rewrite !filter_cons_False, IH.
Qed.

(** X12: the alternatives that come back with the same score are in the order of
    their offsets, earliest date first: the sort is stable and the loop
    pushes the dates in ascending order. *)
Theorem alternatives_keep_ties_in_offset_order id w i event dates results w' sorted w'' :
  find_event id (stored_events w) = Some (i, event) →
  mapM (offsetDate (event !! "date")) alternative_offsets = Some dates →
  probe (ToString (event !! "city")) dates w = (Returned results, w') →
  get_alternatives id w
    = (Returned {| code := 200; body := SuggestionsBody sorted |}, w'') →
  ∀ s, filter (λ x, sg_score x = s) sorted
       = filter (λ x, sg_score x = s) (omap (suggestion_of (event !! "type")) results).
Proof.
  intros Hfind Hdates Hprobe Hget s.
  change alternative_offsets with (filter (λ o, o ≠ 0) (seqZ (-3) 7)) in Hdates.
  destruct (for_each_alternatives event _ dates [] w Hdates)
    as (results0 & w0 & Hprobe0 & Hloop).
  rewrite Hprobe in Hprobe0. injection Hprobe0 as <- <-.
  unfold get_alternatives, bind, readDB in Hget. cbn -[Array_sort] in Hget.
  fold (stored_events w) in Hget. rewrite Hfind, Hloop in Hget.
  cbn -[Array_sort] in Hget. case_bool_decide; [discriminate Hget|].
  injection Hget as <- <-. apply Array_sort_keeps_ties.
Qed.

(** ** Requests to the provider *)

Lemma asks_refl w : asks 0 w w.
Proof. exists []. by rewrite app_nil_r. Qed.

Lemma asks_trans n1 n2 w1 w2 w3 :
  asks n1 w1 w2 → asks n2 w2 w3 → asks (n1 + n2) w1 w3.
Proof.
  intros (u1 & H1 & L1 & F1) (u2 & H2 & L2 & F2). exists (u1 ++ u2).
  rewrite H2, H1, <-app_assoc, length_app. split; [done|]. split; [lia|].
  by apply Forall_app.
Qed.

Lemma asks_le n m w w' : (n ≤ m)%nat → asks n w w' → asks m w w'.
Proof. intros Hle (u & H & L & F). exists u. split; [done|]. split; [lia|done]. Qed.

Lemma spends_ret {A} (a : A) : spends 0 (ret a).
Proof. intros w. apply asks_refl. Qed.

Lemma spends_throw {A} message : spends 0 (@throw A message).
Proof. intros w. apply asks_refl. Qed.

Lemma spends_readDB : spends 0 readDB.
Proof. intros w. apply asks_refl. Qed.

Lemma spends_writeDB events : spends 0 (writeDB events).
Proof. intros w. exists []. by rewrite app_nil_r. Qed.

Lemma spends_bind {A B} n1 n2 (m : M A) (k : A → M B) :
  spends n1 m → (∀ a, spends n2 (k a)) → spends (n1 + n2) (bind m k).
Proof.
  intros Hm Hk w. unfold bind. specialize (Hm w).
  destruct (m w) as [[a|e] w']; cbn in Hm.
  - eapply asks_trans; [exact Hm | apply Hk].
  - eapply asks_le; [|exact Hm]. lia.
Qed.

Lemma spends_le {A} n m (c : M A) : (n ≤ m)%nat → spends n c → spends m c.
Proof. intros Hle Hc w. by eapply asks_le. Qed.

Lemma getWeather_spends city date : spends 1 (getWeather city date).
Proof.
  intros w. destruct (weatherCache w !! cache_key city date) as [data|] eqn:Hc.
  - rewrite (getWeather_hit _ _ _ _ Hc). eapply asks_le; [|apply asks_refl]. lia.
  - rewrite (getWeather_miss _ _ _ Hc).
    assert (asks 1 w (log_upstream (weather_url city) w)) as Hlog.
    { exists [weather_url city]. split; [done|]. split; [done|].
      constructor; [by eexists | constructor]. }
    by destruct (settle _).
Qed.

Lemma safeGetWeather_spends city date : spends 1 (safeGetWeather city date).
Proof. intros w. rewrite safeGetWeather_world. apply getWeather_spends. Qed.

Lemma alternatives_body_spends event offset suggestions :
  spends (if bool_decide (offset = 0) then 0 else 1)
         (alternatives_body event offset suggestions).
Proof.
  unfold alternatives_body. destruct (Z.eqb_spec offset 0) as [->|Hne].
  - apply spends_ret.
  - rewrite bool_decide_eq_false_2 by done.
    destruct (offsetDate (event !! "date") offset) as [dateStr|].
    + apply (spends_bind 1 0); [apply safeGetWeather_spends|].
      intros [raw|]; apply spends_ret.
    + eapply spends_le; [|apply spends_throw]. lia.
Qed.

Lemma for_each_spends event offsets acc :
  spends (length (filter (λ o, o ≠ 0) offsets))
         (for_each offsets (alternatives_body event) acc).
Proof.
  revert acc. induction offsets as [|o rest IH]; intros acc; cbn [for_each].
  - apply spends_ret.
  - pose proof (alternatives_body_spends event o acc) as Hb.
    destruct (decide (o = 0)) as [->|Hne].
    + rewrite filter_cons_False by (by intros ?).
      apply (spends_bind 0 _); [exact Hb | intros a; apply IH].
    + rewrite filter_cons_True by done. rewrite bool_decide_eq_false_2 in Hb by done.
      apply (spends_bind 1 _); [exact Hb | intros a; apply IH].
Qed.

(** X17: serving a request sends the provider at most one request for creation,
    for the raw weather and for a weather check, at most six for the
    alternatives, and none for listing, updating or reading the suitability;
    every request sent is for the current weather of a city, and the log of
    earlier requests is kept. *)
Theorem requests_per_route r w :
  ∃ urls,
    upstream (step w r) = upstream w ++ urls ∧
    (length urls ≤ upstream_budget r)%nat ∧
    Forall (λ url, ∃ city, url = weather_url city) urls.
Proof.
  change (asks (upstream_budget r) w (handle r w).2). revert w.
  change (spends (upstream_budget r) (handle r)).
  destruct r as [req_body| |id req_body|city date|id|id|id];
    cbn [handle upstream_budget].
  - unfold post_events. cbv zeta.
    apply (spends_bind 0 1); [apply spends_readDB|]. intros db.
    apply (spends_bind 1 0); [apply safeGetWeather_spends|]. intros raw.
    apply (spends_bind 0 0); [apply spends_writeDB|]. intros _. apply spends_ret.
  - unfold get_events. apply (spends_bind 0 0); [apply spends_readDB|].
    intros db. apply spends_ret.
  - unfold put_event. apply (spends_bind 0 0); [apply spends_readDB|]. intros db.
    destruct (find_event id db) as [[i event]|]; [|apply spends_ret].
    apply (spends_bind 0 0); [apply spends_writeDB|]. intros _. apply spends_ret.
  - unfold get_weather. apply (spends_bind 1 0); [apply safeGetWeather_spends|].
    intros [raw|]; apply spends_ret.
  - unfold post_weather_check. apply (spends_bind 0 1); [apply spends_readDB|].
    intros db. destruct (find_event id db) as [[i event]|];
      [|eapply spends_le; [|apply spends_ret]; lia].
    apply (spends_bind 1 0); [apply safeGetWeather_spends|].
    intros [raw|]; [|apply spends_ret]. cbv zeta.
    apply (spends_bind 0 0); [apply spends_writeDB|]. intros _. apply spends_ret.
  - unfold get_suitability. apply (spends_bind 0 0); [apply spends_readDB|].
    intros db. destruct (find_event id db) as [[i event]|]; apply spends_ret.
  - unfold get_alternatives. apply (spends_bind 0 6); [apply spends_readDB|].
    intros db. destruct (find_event id db) as [[i event]|];
      [|eapply spends_le; [|apply spends_ret]; lia].
    apply (spends_bind 6 0); [apply (for_each_spends event (seqZ (-3) 7) [])|].
    intros suggestions. case_match; apply spends_ret.
Qed.

(** ** Checking the weather twice *)

Lemma not_refreshed k :
  k ≠ "weather" → k ≠ "score" → k ≠ "suitability" →
  k ∉ ["weather"; "score"; "suitability"].
Proof.
  intros ??? Hin. repeat (apply elem_of_cons in Hin as [->|Hin]; [done|]).
  by apply elem_of_nil in Hin.
Qed.

Lemma id_is_same_id id (e e' : object) : e' !! "id" = e !! "id" → id_is id e' = id_is id e.
Proof. intros H. unfold id_is. by rewrite H. Qed.

Lemma find_event_insert id events i e e' :
  find_event id events = Some (i, e) →
  e' !! "id" = e !! "id" →
  find_event id (<[i := e']> events) = Some (i, e').
Proof.
  revert i. induction events as [|x rest IH]; intros i; cbn; [done|].
  destruct (id_is id x) eqn:Hx.
  - intros [= <- <-] Hid. cbn. by rewrite (id_is_same_id _ _ _ Hid), Hx.
  - destruct (find_event id rest) as [[i' e'']|] eqn:Hrest; cbn; [|done].
    intros [= <- <-] Hid.
    change (<[S i' := e']> (x :: rest)) with (x :: <[i' := e']> rest).
    cbn [find_event]. by rewrite Hx, (IH i' eq_refl Hid).
Qed.

(** X18: a weather check repeated right after a successful one gives the same
    reply and changes nothing: the payload comes from the cache, so no
    request goes to the provider, and the record is rewritten with the
    values it already has. *)
Theorem weather_check_twice id w i event raw w1 :
  find_event id (stored_events w) = Some (i, event) →
  safeGetWeather (ToString (event !! "city")) (ToString (event !! "date")) w
    = (Returned (Some raw), w1) →
  let wa := step w (POST_weather_check id) in
  post_weather_check id wa = ((post_weather_check id w).1, wa).
Proof.
  intros Hfind Hs wa.
  destruct (post_weather_check_returns id w i event raw w1 Hfind Hs)
    as (event' & Hfirst & Hw & Hsc & Hsu & Hother & _ & _).
  assert (wa = set_db (<[i := event']> (stored_events w)) w1) as Hwa.
  { subst wa. unfold step. cbn [handle]. by rewrite Hfirst. }
  assert (find_event id (stored_events wa) = Some (i, event')) as Hfind'.
  { rewrite Hwa. apply (find_event_insert _ _ _ event); [done|].
    apply Hother. by apply not_refreshed. }
  assert (safeGetWeather (ToString (event' !! "city")) (ToString (event' !! "date")) wa
          = (Returned (Some raw), wa)) as Hs'.
  { rewrite !Hother by (by apply not_refreshed).
    rewrite safeGetWeather_unfold in Hs.
    destruct (getWeather (ToString (event !! "city")) (ToString (event !! "date")) w)
      as [[data|m] w0] eqn:Hget; [|done].
    injection Hs as -> ->. apply getWeather_returned in Hget as [Hc _].
    rewrite safeGetWeather_unfold, (getWeather_hit _ _ wa (Some raw)); [done|].
    by rewrite Hwa. }
  destruct (post_weather_check_returns id wa i event' raw wa Hfind' Hs')
    as (event'' & Hsecond & Hw' & Hsc' & Hsu' & Hother' & _ & _).
  assert (event'' = event') as ->.
  { apply map_eq. intros k.
    destruct (decide (k ∈ ["weather"; "score"; "suitability"])) as [Hin|Hout].
    - rewrite (Hother "type") in Hsc', Hsu' by (by apply not_refreshed).
      repeat (apply elem_of_cons in Hin as [->|Hin]; [congruence|]).
      by apply elem_of_nil in Hin.
    - by apply Hother'. }
  rewrite Hsecond, Hfirst. cbn [fst]. f_equal.
  rewrite Hwa. unfold set_db, stored_events. cbn. by rewrite list_insert_insert_eq.
Qed.

(** ** Reading back what an update wrote *)

(** X16: after an update that does not provide [id], the suitability route for
    the same id answers with the score and the suitability the record now
    holds: the request's value where it provided one, the old value
    otherwise, nothing being recomputed. *)
Theorem update_then_read id req_body w i event :
  find_event id (stored_events w) = Some (i, event) →
  req_body !! "id" = None →
  let w1 := step w (PUT_event id req_body) in
  get_suitability id w1
  = (Returned
       {| code := 200;
          body := SuitabilityBody
                    (from_option Some (event !! "score") (req_body !! "score"))
                    (from_option Some (event !! "suitability")
                       (req_body !! "suitability")) |},
     w1).
Proof.
  intros Hfind Hid w1.
  assert (stored_events w1 = <[i := Object_assign event req_body]> (stored_events w))
    as Hw1.
  { subst w1. unfold step. cbn [handle]. by rewrite (put_event_store _ _ _ _ _ Hfind). }
  assert (find_event id (stored_events w1) = Some (i, Object_assign event req_body))
    as Hfind'.
  { rewrite Hw1. apply (find_event_insert _ _ _ event); [done|].
    by rewrite Object_assign_lookup, Hid. }
  unfold get_suitability, bind, readDB. cbn. fold (stored_events w1). rewrite Hfind'.
  cbn. by rewrite !Object_assign_lookup.
Qed.

(** ** Matching the description *)

Lemma toLowerCase_app a b : toLowerCase (a +:+ b) = toLowerCase a +:+ toLowerCase b.
Proof.
  induction a as [|c a IH]; [done|].
  change (String (lower_ascii c) (toLowerCase (a +:+ b))
          = String (lower_ascii c) (toLowerCase a +:+ toLowerCase b)).
  by rewrite IH.
Qed.

Lemma toLowerCase_split d a b :
  toLowerCase d = a +:+ b →
  ∃ a' b', d = a' +:+ b' ∧ toLowerCase a' = a ∧ toLowerCase b' = b.
Proof.
  revert d. induction a as [|c a IH]; intros d H.
  - by exists "", d.
  - destruct d as [|x d]; [done|].
    change (String (lower_ascii x) (toLowerCase d) = String c (a +:+ b)) in H.
    injection H as Hx Hd. destruct (IH d Hd) as (a' & b' & -> & Ha & Hb).
    exists (String x a'), b'. split; [done|]. split; [|done].
    change (String (lower_ascii x) (toLowerCase a') = String c a). by rewrite Hx, Ha.
Qed.

(** X4: the test [desc.includes (word)] on the lower-cased description holds
    exactly when the description has, at some position, the letters of the
    word in any mix of upper and lower case. *)
Theorem description_matching_ignores_case d word :
  includes (toLowerCase d) word = true ↔
  ∃ pre mid post, d = pre +:+ mid +:+ post ∧ toLowerCase mid = word.
Proof.
  rewrite includes_spec. split.
  - intros (pre & post & H).
    apply toLowerCase_split in H as (pre' & rest & -> & _ & H).
    apply toLowerCase_split in H as (mid & post' & -> & Hmid & _).
    by exists pre', mid, post'.
  - intros (pre & mid & post & -> & Hmid).
    exists (toLowerCase pre), (toLowerCase post).
    by rewrite !toLowerCase_app, Hmid.
Qed.

(** ** Checking the weather of a new event *)

(** X19: in a store numbered 1, 2, 3, ..., a weather check of an event right
    after its creation with a successful fetch changes nothing at all: the
    payload is in the cache, so the provider is not asked again, and the
    record already holds the weather, score and suitability the check writes. *)
Theorem weather_check_after_creation req_body w raw w0 :
  ids_sequential (stored_events w) →
  safeGetWeather (ToString (req_body !! "city")) (ToString (req_body !! "date")) w
    = (Returned (Some raw), w0) →
  let w1 := step w (POST_events req_body) in
  let id := Some (Z.of_nat (length (stored_events w)) + 1) in
  step w1 (POST_weather_check id) = w1.
Proof.
  intros Hseq Hs w1 id.
  destruct (post_events_found req_body w Hseq) as (stored & Hw1 & Hfind & _).
  fold w1 in Hw1, Hfind. fold id in Hfind.
  destruct (post_events_fields req_body w) as (stored' & Hw1' & Hreq & _).
  fold w1 in Hw1'. rewrite Hw1 in Hw1'. apply app_inj_tail in Hw1' as [_ <-].
  destruct (post_events_store req_body w)
    as (fetched & w0' & reply & stored'' & Hs' & Hp & _ & Hwe & Hsc & Hsu).
  rewrite Hs in Hs'. injection Hs' as <- <-.
  assert (w1 = set_db (stored_events w ++ [stored'']) w0) as Hw1eq.
  { subst w1. unfold step. cbn [handle]. by rewrite Hp. }
  assert (stored'' = stored) as ->.
  { assert (stored_events w1 = stored_events w ++ [stored'']) as H
      by (by rewrite Hw1eq).
    rewrite Hw1 in H. by apply app_inj_tail in H as [_ ->]. }
  cbn in Hwe, Hsc, Hsu.
  assert (safeGetWeather (ToString (stored !! "city")) (ToString (stored !! "date")) w1
          = (Returned (Some raw), w1)) as Hs1.
  { rewrite !Hreq by (repeat first [by left | right]).
    rewrite safeGetWeather_unfold in Hs.
    destruct (getWeather (ToString (req_body !! "city")) (ToString (req_body !! "date")) w)
      as [[data|m] w'] eqn:Hget; [|done].
    injection Hs as -> ->. apply getWeather_returned in Hget as [Hc _].
    rewrite safeGetWeather_unfold, (getWeather_hit _ _ w1 (Some raw)); [done|].
    by rewrite Hw1eq. }
  destruct (post_weather_check_returns id w1 _ stored raw w1 Hfind Hs1)
    as (event' & Hcheck & Hw' & Hsc' & Hsu' & Hother & _ & _).
  assert (event' = stored) as ->.
  { apply map_eq. intros k.
    destruct (decide (k ∈ ["weather"; "score"; "suitability"])) as [Hin|Hout].
    - rewrite (Hreq "type") in Hsc', Hsu' by (repeat first [by left | right]).
      repeat (apply elem_of_cons in Hin as [->|Hin]; [congruence|]).
      by apply elem_of_nil in Hin.
    - by apply Hother. }
  unfold step at 1. cbn [handle]. rewrite Hcheck. cbn [snd].
  rewrite Hw1, list_insert_id.
  - rewrite <-Hw1, Hw1eq. done.
  - by rewrite lookup_app_r, Nat.sub_diag.
Qed.

(** ** A falsy payload in the cache *)

(** X20: once the provider has answered a fetch for a city and date with a
    success whose body is falsy, as [null] is, that payload stays in the
    cache whatever is served afterwards: every later fetch for the pair
    returns it without asking the provider, so the raw-weather route for the
    pair and the weather check of every event with that city and date keep
    answering 500 and leave the world as it was. *)
Theorem falsy_payload_stays_cached city date w w1 rs :
  getWeather city date w = (Returned None, w1) →
  let w2 := serve rs w1 in
  getWeather city date w2 = (Returned None, w2) ∧
  get_weather city date w2
    = (Returned {| code := 500;
                   body := ErrorBody "Weather API unavailable or invalid location" |},
       w2) ∧
  ∀ id i event,
    find_event id (stored_events w2) = Some (i, event) →
    ToString (event !! "city") = city →
    ToString (event !! "date") = date →
    post_weather_check id w2
      = (Returned {| code := 500; body := ErrorBody "Weather check failed" |}, w2).
Proof.
  intros Hget w2. apply getWeather_returned in Hget as [Hc _].
  assert (weatherCache w2 !! cache_key city date = Some None) as Hc2.
  { eapply lookup_weaken; [exact Hc|]. apply serve_cache_grows. }
  pose proof (getWeather_hit _ _ _ _ Hc2) as Hhit.
  split; [exact Hhit|]. split.
  - unfold get_weather, bind. by rewrite safeGetWeather_unfold, Hhit.
  - intros id i event Hfind Hcity Hdate.
    unfold post_weather_check, bind, readDB. cbn. fold (stored_events w2).
    rewrite Hfind. cbn. by rewrite Hcity, Hdate, safeGetWeather_unfold, Hhit.
Qed.

End Service.

(** * The alternatives on the language's [Date] *)



(** * The service on the sample host *)

(** A failed weather check on the stored picnic, the provider being down. *)
Lemma weather_check_failure_on_host :
  ∃ w',
    post_weather_check Host.provider_down Host.ToString (Some 1)
      (Host.world_of [Host.stored_picnic])
      = (Returned {| code := 500; body := ErrorBody "Weather check failed" |}, w') ∧
    db_file w' = db_file (Host.world_of [Host.stored_picnic]) ∧
    weatherCache w' = weatherCache (Host.world_of [Host.stored_picnic]) ∧
    find_event (Some 1) (default [] (db_file w')) = Some (0%nat, Host.stored_picnic) ∧
    default [] (db_file w') !! 0%nat = Some Host.stored_picnic.
Proof.
  apply (weather_check_failure_is_atomic Host.provider_down Host.ToString (Some 1)
           (Host.world_of [Host.stored_picnic]) 0 Host.stored_picnic "request failed"
           (log_upstream (weather_url "Pune") (Host.world_of [Host.stored_picnic])));
    vm_compute; reflexivity.
Defined.

(** Creating the picnic while the provider is down. *)
Lemma create_on_host_while_down :
  ∃ event stored w',
    post_events Host.provider_down Host.ToString Host.picnic Host.boot
      = (Returned {| code := 200; body := EventBody event |}, w') ∧
    db_file w' = Some (default [] (db_file Host.boot) ++ [stored]) ∧
    event !! "weather" = Some (Some JNull) ∧
    event !! "score" = Some (Some (JInt 0)) ∧
    event !! "suitability" = Some (Some (JStr "Unknown")) ∧
    stored !! "weather" = Some JNull ∧
    stored !! "score" = Some (JInt 0) ∧
    stored !! "suitability" = Some (JStr "Unknown") ∧
    stored !! "id" = Some (JInt (Z.of_nat (length (default [] (db_file Host.boot))) + 1)) ∧
    event !! "id" = Some (stored !! "id") ∧
    (∀ k, k ∈ ["name"; "city"; "date"; "type"] →
          stored !! k = Host.picnic !! k ∧ event !! k = Some (Host.picnic !! k)).
Proof.
  apply (create_survives_failed_fetch Host.provider_down Host.ToString Host.picnic
           Host.boot "request failed" (log_upstream (weather_url "Pune") Host.boot)).
  vm_compute; reflexivity.
Defined.

(** A clear sky fetched once for Pune is served from the cache after the
    picnic has been created, listed and checked. *)
Lemma cached_fetch_on_host :
  let w1 := set_cache (cache_key "Pune" "2024-03-01") (Some Host.clear_sky)
              (log_upstream (weather_url "Pune") Host.boot) in
  let w2 := serve Host.provider_clear Host.ToString Host.offsetDate
              [POST_events Host.picnic; GET_events; POST_weather_check (Some 1)] w1 in
  getWeather Host.provider_clear "Pune" "2024-03-01" Host.boot
    = (Returned (Some Host.clear_sky), w1) ∧
  getWeather Host.provider_clear "Pune" "2024-03-01" w2 = (Returned (Some Host.clear_sky), w2) ∧
  safeGetWeather Host.provider_clear "Pune" "2024-03-01" w2
    = (Returned (Some Host.clear_sky), w2) ∧
  upstream (getWeather Host.provider_clear "Pune" "2024-03-01" w2).2 = upstream w2 ∧
  (∀ data', (getWeather Host.provider_clear "Pune" "2024-03-01" w2).1 = Returned data' →
            simplifyWeather <$> data' = Some (simplifyWeather Host.clear_sky)).
Proof.
  intros w1 w2.
  assert (getWeather Host.provider_clear "Pune" "2024-03-01" Host.boot
          = (Returned (Some Host.clear_sky), w1)) as H by (vm_compute; reflexivity).
  split; [exact H|].
  exact (cached_fetch_is_repeated Host.provider_clear Host.ToString Host.offsetDate
           "Pune" "2024-03-01" Host.boot (Some Host.clear_sky) w1
           [POST_events Host.picnic; GET_events; POST_weather_check (Some 1)] H).
Defined.

(** A 503 from the provider on a cold cache. *)
Lemma failed_fetch_on_host :
  weatherCache Host.boot !! cache_key "Pune" "2024-03-01" = None ∧
  fetch_failed (Host.provider_503 (length (upstream Host.boot)) (weather_url "Pune")) ∧
  ∃ message w1,
    getWeather Host.provider_503 "Pune" "2024-03-01" Host.boot = (Thrown message, w1) ∧
    weatherCache w1 = weatherCache Host.boot.
Proof.
  assert (weatherCache Host.boot !! cache_key "Pune" "2024-03-01" = None) as Hmiss
    by reflexivity.
  assert (fetch_failed (Host.provider_503 (length (upstream Host.boot))
                          (weather_url "Pune"))) as Hfail
    by (left; reflexivity).
  split; [exact Hmiss|]. split; [exact Hfail|].
  destruct (failed_fetch_is_not_cached Host.provider_503 "Pune" "2024-03-01" Host.boot
              Hmiss Hfail) as (message & w1 & Hget & _ & Hcache & _).
  exists message, w1. split; [exact Hget | exact Hcache].
Defined.



(** An update that provides only [score] leaves the stored picnic with a
    score that no observation gives together with its suitability: the two
    are no longer the two halves of one result of the scorer. *)
Lemma update_splits_score_from_suitability :
  let w := Host.world_of [Host.stored_picnic] in
  let w' := step Host.provider_down Host.ToString Host.offsetDate w
              (PUT_event (Some 1) {[ "score" := JInt 99 ]}) in
  ∃ e e',
    stored_events w !! 0%nat = Some e ∧ stored_events w' !! 0%nat = Some e' ∧
    e !! "score" = Some (JInt 0) ∧ e' !! "score" = Some (JInt 99) ∧
    e' !! "suitability" = e !! "suitability" ∧
    e' !! "suitability" = Some (JStr "Unknown") ∧
    e' !! "weather" = e !! "weather" ∧
    ¬ ∃ weather type,
        e' !! "score" = Some (JInt (score (getSuitability weather type))) ∧
        e' !! "suitability" = Some (JStr (suitability (getSuitability weather type))).
Proof.
  exists Host.stored_picnic,
    (Object_assign Host.stored_picnic {[ "score" := JInt 99 ]}).
  assert (Object_assign Host.stored_picnic {[ "score" := JInt 99 ]} !! "score"
          = Some (JInt 99)) as Hs by (vm_compute; reflexivity).
  assert (Object_assign Host.stored_picnic {[ "score" := JInt 99 ]} !! "suitability"
          = Some (JStr "Unknown")) as Hu by (vm_compute; reflexivity).
  split; [reflexivity|]. split; [reflexivity|].
  split; [vm_compute; reflexivity|]. split; [exact Hs|].
  split; [vm_compute; reflexivity|]. split; [exact Hu|].
  split; [vm_compute; reflexivity|].
  intros (weather & type & Hscore & Hsuit).
  rewrite Hs in Hscore. rewrite Hu in Hsuit.
  injection Hscore as H1. injection Hsuit as H2.
  rewrite getSuitability_scorer in H2. destruct weather as [obs|].
  - symmetry in H2. by apply label_not_unknown in H2.
  - rewrite getSuitability_scorer in H1. discriminate H1.
Qed.




(** An update that provides [id] renumbers the stored picnic, here with the
    number the gala already has: the id of an existing event has changed and
    two events share one id. *)
Lemma update_overwrites_id :
  let w := Host.world_of [Host.stored_picnic; Host.stored_gala] in
  let w' := step Host.provider_down Host.ToString Host.offsetDate w
              (PUT_event (Some 1) {[ "id" := JInt 2 ]}) in
  (stored_events w !! 0%nat ≫= lookup "id") = Some (JInt 1) ∧
  (stored_events w' !! 0%nat ≫= lookup "id") = Some (JInt 2) ∧
  (stored_events w' !! 1%nat ≫= lookup "id") = Some (JInt 2).
Proof. vm_compute. repeat split. Qed.

(** * The further properties on the sample host *)

(** "New-York" on a date and "New" on "York-" and that date share a key. *)
Lemma cache_key_collision_on_host :
  let w1 := (getWeather Host.provider_clear ("New" +:+ "-" +:+ "York") "2024-03-01"
               Host.boot).2 in
  cache_key ("New" +:+ "-" +:+ "York") "2024-03-01"
    = cache_key "New" ("York" +:+ "-" +:+ "2024-03-01") ∧
  getWeather Host.provider_clear "New" ("York" +:+ "-" +:+ "2024-03-01") w1
    = (Returned (Some Host.clear_sky), w1).
Proof.
  apply (cache_key_collision Host.provider_clear "New" "York" "2024-03-01" Host.boot).
  vm_compute; reflexivity.
Defined.

(** Two dates for Pune on a cold cache. *)
Lemma date_is_not_sent_upstream_on_host :
  (getWeather Host.provider_flaky "Pune" "2024-03-01" Host.boot).1
    = (getWeather Host.provider_flaky "Pune" "1999-12-31" Host.boot).1 ∧
  upstream (getWeather Host.provider_flaky "Pune" "2024-03-01" Host.boot).2
    = upstream Host.boot ++ [weather_url "Pune"] ∧
  upstream (getWeather Host.provider_flaky "Pune" "1999-12-31" Host.boot).2
    = upstream Host.boot ++ [weather_url "Pune"].
Proof.
  apply (date_is_not_sent_upstream Host.provider_flaky "Pune" "2024-03-01" "1999-12-31"
           Host.boot); reflexivity.
Defined.

(** A route parameter that is not a number, with the picnic stored. *)
Lemma id_routes_answer_404_on_host :
  let w := Host.world_of [Host.stored_picnic] in
  let not_found :=
    (Returned {| code := 404; body := ErrorBody "Event not found" |}, w) in
  put_event None {[ "name" := JStr "Fair" ]} w = not_found ∧
  post_weather_check Host.provider_clear Host.ToString None w = not_found ∧
  get_suitability None w = not_found ∧
  get_alternatives Host.provider_clear Host.ToString Host.offsetDate None w = not_found.
Proof.
  apply (id_routes_answer_404 Host.provider_clear Host.ToString Host.offsetDate None
           {[ "name" := JStr "Fair" ]} (Host.world_of [Host.stored_picnic])).
  intros e n q _ H. discriminate H.
Defined.

(** A weather check of the stored picnic under a clear sky. *)
Lemma weather_check_success_on_host :
  let w := Host.world_of [Host.stored_picnic] in
  let w1 := (safeGetWeather Host.provider_clear "Pune" "2024-03-01" w).2 in
  ∃ event',
    post_weather_check Host.provider_clear Host.ToString (Some 1) w
      = (Returned {| code := 200; body := EventBody (formatEvent (of_object event')) |},
         set_db (<[0%nat := event']> (stored_events w)) w1) ∧
    event' !! "score" = Some (JInt 75) ∧
    event' !! "suitability" = Some (JStr "Good") ∧
    event' !! "name" = Some (JStr "Picnic").
Proof.
  intros w w1.
  destruct (weather_check_success Host.provider_clear Host.ToString (Some 1) w 0%nat
              Host.stored_picnic Host.clear_sky w1)
    as (event' & Hreply & _ & Hscore & Hsuit & Hother & _).
  - vm_compute; reflexivity.
  - vm_compute; reflexivity.
  - exists event'. split; [exact Hreply|]. split; [exact Hscore|]. split; [exact Hsuit|].
    rewrite Hother; [vm_compute; reflexivity|].
    intros Hin. repeat (apply elem_of_cons in Hin as [Hin|Hin]; [discriminate Hin|]).
    by apply elem_of_nil in Hin.
Defined.

(** The alternatives for a record that has no date. *)
Lemma alternatives_throw_on_host :
  get_alternatives Host.provider_clear Host.ToString Host.offsetDate (Some 1)
    (Host.world_of [delete "date" Host.stored_picnic])
  = (Thrown "Invalid time value", Host.world_of [delete "date" Host.stored_picnic]).
Proof.
  apply (alternatives_throw_on_invalid_date Host.provider_clear Host.ToString
           Host.offsetDate (Some 1) (Host.world_of [delete "date" Host.stored_picnic])
           0%nat (delete "date" Host.stored_picnic));
    vm_compute; reflexivity.
Defined.

(** The picnic created on an empty store is found by id 1. *)
Lemma created_event_is_found_on_host :
  let w1 := step Host.provider_down Host.ToString Host.offsetDate Host.boot
              (POST_events Host.picnic) in
  ∃ stored,
    stored_events w1 = stored_events Host.boot ++ [stored] ∧
    find_event (Some (Z.of_nat (length (stored_events Host.boot)) + 1)) (stored_events w1)
      = Some (length (stored_events Host.boot), stored) ∧
    get_suitability (Some (Z.of_nat (length (stored_events Host.boot)) + 1)) w1
      = (Returned {| code := 200;
                     body := SuitabilityBody (stored !! "score") (stored !! "suitability") |},
         w1).
Proof.
  apply (created_event_is_found Host.provider_down Host.ToString Host.offsetDate
           Host.picnic Host.boot).
  intros i e H. discriminate H.
Defined.

(** An update of the picnic's score alone, read back. *)
Lemma update_then_read_on_host :
  let w := Host.world_of [Host.stored_picnic] in
  let w1 := step Host.provider_down Host.ToString Host.offsetDate w
              (PUT_event (Some 1) {[ "score" := JInt 99 ]}) in
  get_suitability (Some 1) w1
  = (Returned {| code := 200;
                 body := SuitabilityBody (Some (JInt 99)) (Some (JStr "Unknown")) |},
     w1).
Proof.
  exact (update_then_read Host.provider_down Host.ToString Host.offsetDate (Some 1)
           {[ "score" := JInt 99 ]} (Host.world_of [Host.stored_picnic]) 0%nat
           Host.stored_picnic ltac:(vm_compute; reflexivity) ltac:(reflexivity)).
Defined.

(** Six clear days around the picnic: all score alike and come back in the
    order of their dates. *)
Lemma alternatives_ties_on_host :
  let w := Host.world_of [Host.stored_picnic] in
  let dates := ["2024-02-27"; "2024-02-28"; "2024-02-29";
                "2024-03-02"; "2024-03-03"; "2024-03-04"] in
  let sorted :=
    (λ d, {| sg_date := d; sg_score := 75; sg_suitability := "Good" |}) <$> dates in
  (get_alternatives Host.provider_clear Host.ToString Host.offsetDate (Some 1) w).1
    = Returned {| code := 200; body := SuggestionsBody sorted |} ∧
  filter (λ x, sg_score x = 75) sorted
  = filter (λ x, sg_score x = 75)
      (omap (suggestion_of (Host.stored_picnic !! "type"))
         ((λ d, (d, Some Host.clear_sky)) <$> dates)).
Proof.
  intros w dates sorted.
  assert ((get_alternatives Host.provider_clear Host.ToString Host.offsetDate (Some 1) w).1
          = Returned {| code := 200; body := SuggestionsBody sorted |}) as Hget
    by (vm_compute; reflexivity).
  split; [exact Hget|].
  apply (alternatives_keep_ties_in_offset_order Host.provider_clear Host.ToString
           Host.offsetDate (Some 1) w 0%nat Host.stored_picnic dates
           ((λ d, (d, Some Host.clear_sky)) <$> dates)
           (probe Host.provider_clear "Pune" dates w).2 sorted
           (get_alternatives Host.provider_clear Host.ToString Host.offsetDate (Some 1) w).2).
  - vm_compute; reflexivity.
  - vm_compute; reflexivity.
  - vm_compute; reflexivity.
  - rewrite <-Hget. by destruct (get_alternatives _ _ _ _ _).
Defined.

(** Checking the stored picnic twice under a clear sky. *)
Lemma weather_check_twice_on_host :
  let w := Host.world_of [Host.stored_picnic] in
  let wa := step Host.provider_clear Host.ToString Host.offsetDate w
              (POST_weather_check (Some 1)) in
  post_weather_check Host.provider_clear Host.ToString (Some 1) wa
  = ((post_weather_check Host.provider_clear Host.ToString (Some 1) w).1, wa).
Proof.
  apply (weather_check_twice Host.provider_clear Host.ToString Host.offsetDate (Some 1)
           (Host.world_of [Host.stored_picnic]) 0%nat Host.stored_picnic Host.clear_sky
           (safeGetWeather Host.provider_clear "Pune" "2024-03-01"
              (Host.world_of [Host.stored_picnic])).2);
    vm_compute; reflexivity.
Defined.

(** Creating the picnic under a clear sky and checking it at once. *)
Lemma weather_check_after_creation_on_host :
  let w1 := step Host.provider_clear Host.ToString Host.offsetDate Host.boot
              (POST_events Host.picnic) in
  step Host.provider_clear Host.ToString Host.offsetDate w1 (POST_weather_check (Some 1))
  = w1.
Proof.
  apply (weather_check_after_creation Host.provider_clear Host.ToString Host.offsetDate
           Host.picnic Host.boot Host.clear_sky
           (safeGetWeather Host.provider_clear "Pune" "2024-03-01" Host.boot).2).
  - intros i e H. discriminate H.
  - vm_compute; reflexivity.
Defined.

(** The provider answers the first request for Pune with the body [null]
    and would answer the next with a clear sky: it is not asked again. *)
Lemma falsy_payload_on_host :
  let w1 := (getWeather Host.provider_null_once "Pune" "2024-03-01" Host.boot).2 in
  let w2 := serve Host.provider_null_once Host.ToString Host.offsetDate
              [GET_events; GET_weather "Pune" "2024-03-01"] w1 in
  getWeather Host.provider_null_once "Pune" "2024-03-01" w2 = (Returned None, w2) ∧
  upstream w2 = upstream w1 ∧
  length (upstream w2) = 1%nat.
Proof.
  intros w1 w2.
  destruct (falsy_payload_stays_cached Host.provider_null_once Host.ToString
              Host.offsetDate "Pune" "2024-03-01" Host.boot w1
              [GET_events; GET_weather "Pune" "2024-03-01"]) as (Hhit & _ & _).
  - vm_compute; reflexivity.
  - split; [exact Hhit|]. split; vm_compute; reflexivity.
Defined.

(** The raw-weather route on a provider that answers with the body [null]. *)
Lemma get_weather_null_on_host :
  (get_weather Host.provider_null "Pune" "2024-03-01" Host.boot).1
    = Returned {| code := 500;
                  body := ErrorBody "Weather API unavailable or invalid location" |} ∧
  weatherCache (get_weather Host.provider_null "Pune" "2024-03-01" Host.boot).2
    !! cache_key "Pune" "2024-03-01" = Some None.
Proof.
  exact (proj2 (get_weather_replies Host.provider_null "Pune" "2024-03-01" Host.boot)).
Defined.
